(** * Consistent-hashing ring of arcus-memcached: [cluster_config.c]

    A shallow embedding of [cluster_config.c] (server registry, ketama
    continuum builder, reconfiguration and ownership lookup) together with
    the properties of it that the design document states.

    Conventions of the embedding.
    - A C string buffer is a [list byte]: the bytes that follow the pointer,
      with the terminating NUL implicit after the last element.  A NUL byte
      inside the list ends the C string early, which is how the truncation
      performed by [strtok_r] shows.
    - [uint32_t], [int] and [size_t] values are integers in [Z]; pointers
      into the continuum are indices in [Z] (so that [midp - 1] one place
      before the array can be written).  Counters are not wrapped: the
      model covers server lists whose 160-fold length fits an [int].
    - A call yields an [outcome]: it returns, an [assert] aborts it, it runs
      into undefined behaviour, or the model's iteration budget ran out.
    - [calloc] and [strdup] draw their success from an allocation oracle
      that is threaded through the calls.
    - The mutex and the logger carry no data and are left out. *)

From Stdlib Require Import ZArith List Lia Bool String DecimalString.
From Stdlib.Strings Require Import Byte.
From Stdlib Require Import Permutation Sorted Orders Mergesort.
Import ListNotations.

Local Open Scope Z_scope.

(** ** Bytes and C strings *)

Definition byte_to_Z (b : byte) : Z := Z.of_N (Byte.to_N b).

Definition byte_of_Z (x : Z) : byte :=
  match Byte.of_N (Z.to_N (x mod 256)) with
  | Some b => b
  | None => x00
  end.

Definition NUL : byte := x00.
Definition DASH : byte := x2d.

Definition is_nul (b : byte) : bool := Byte.eqb b NUL.

(** A literal as the bytes of a C string. *)
Definition cstr (s : string) : list byte := list_byte_of_string s.

(** [strlen]-bounded contents of a buffer: the bytes before the first NUL. *)
Fixpoint c_string (buf : list byte) : list byte :=
  match buf with
  | [] => []
  | b :: rest => if is_nul b then [] else b :: c_string rest
  end.

Definition strlen (buf : list byte) : Z := Z.of_nat (List.length (c_string buf)).

(** ** MD5 *)

(** Modelled from the spec: [rfc1321/md5c.c] ([MD5Init], [MD5Update],
    [MD5Final]) is included by the source file but is not part of it; the
    spec asks for a standard 128-bit digest, and the file name says which:
    the MD5 function as RFC 1321 defines it. *)
Module MD5.

Definition w32 (x : Z) : Z := x mod 2 ^ 32.

Definition not32 (x : Z) : Z := Z.lxor x 0xFFFFFFFF.

Definition rotl (x s : Z) : Z :=
  w32 (Z.lor (Z.shiftl x s) (Z.shiftr x (32 - s))).

Definition F (x y z : Z) : Z := Z.lor (Z.land x y) (Z.land (not32 x) z).
Definition G (x y z : Z) : Z := Z.lor (Z.land x z) (Z.land y (not32 z)).
Definition H (x y z : Z) : Z := Z.lxor (Z.lxor x y) z.
Definition I (x y z : Z) : Z := Z.lxor y (Z.lor x (not32 z)).

Definition T : list Z :=
  [ 0xd76aa478; 0xe8c7b756; 0x242070db; 0xc1bdceee;
    0xf57c0faf; 0x4787c62a; 0xa8304613; 0xfd469501;
    0x698098d8; 0x8b44f7af; 0xffff5bb1; 0x895cd7be;
    0x6b901122; 0xfd987193; 0xa679438e; 0x49b40821;
    0xf61e2562; 0xc040b340; 0x265e5a51; 0xe9b6c7aa;
    0xd62f105d; 0x02441453; 0xd8a1e681; 0xe7d3fbc8;
    0x21e1cde6; 0xc33707d6; 0xf4d50d87; 0x455a14ed;
    0xa9e3e905; 0xfcefa3f8; 0x676f02d9; 0x8d2a4c8a;
    0xfffa3942; 0x8771f681; 0x6d9d6122; 0xfde5380c;
    0xa4beea44; 0x4bdecfa9; 0xf6bb4b60; 0xbebfbc70;
    0x289b7ec6; 0xeaa127fa; 0xd4ef3085; 0x04881d05;
    0xd9d4d039; 0xe6db99e5; 0x1fa27cf8; 0xc4ac5665;
    0xf4292244; 0x432aff97; 0xab9423a7; 0xfc93a039;
    0x655b59c3; 0x8f0ccc92; 0xffeff47d; 0x85845dd1;
    0x6fa87e4f; 0xfe2ce6e0; 0xa3014314; 0x4e0811a1;
    0xf7537e82; 0xbd3af235; 0x2ad7d2bb; 0xeb86d391 ].

Definition S : list Z :=
  [ 7; 12; 17; 22; 7; 12; 17; 22; 7; 12; 17; 22; 7; 12; 17; 22;
    5;  9; 14; 20; 5;  9; 14; 20; 5;  9; 14; 20; 5;  9; 14; 20;
    4; 11; 16; 23; 4; 11; 16; 23; 4; 11; 16; 23; 4; 11; 16; 23;
    6; 10; 15; 21; 6; 10; 15; 21; 6; 10; 15; 21; 6; 10; 15; 21 ].

Record state := mkState { sa : Z; sb : Z; sc : Z; sd : Z }.

Definition init : state :=
  mkState 0x67452301 0xefcdab89 0x98badcfe 0x10325476.

(** One of the 64 operations on the 16-word block [x]. *)
Definition op (x : list Z) (st : state) (i : nat) : state :=
  let '(mkState a b c d) := st in
  let zi := Z.of_nat i in
  let '(f, g) :=
    if zi <? 16 then (F b c d, zi)
    else if zi <? 32 then (G b c d, (5 * zi + 1) mod 16)
    else if zi <? 48 then (H b c d, (3 * zi + 5) mod 16)
    else (I b c d, (7 * zi) mod 16) in
  let sum := w32 (a + f + nth i T 0 + nth (Z.to_nat g) x 0) in
  mkState d (w32 (b + rotl sum (nth i S 0))) b c.

Definition transform (st : state) (x : list Z) : state :=
  let st' := fold_left (op x) (seq 0 64) st in
  mkState (w32 (sa st + sa st')) (w32 (sb st + sb st'))
          (w32 (sc st + sc st')) (w32 (sd st + sd st')).

(** Little-endian decoding and encoding of 32-bit words. *)
Fixpoint decode (bs : list Z) : list Z :=
  match bs with
  | b0 :: b1 :: b2 :: b3 :: rest =>
      (b0 + 2 ^ 8 * b1 + 2 ^ 16 * b2 + 2 ^ 24 * b3) :: decode rest
  | _ => []
  end.

Definition encode (w : Z) : list Z :=
  [ w mod 256; (w / 2 ^ 8) mod 256; (w / 2 ^ 16) mod 256; (w / 2 ^ 24) mod 256 ].

Definition padding (len : Z) : list Z :=
  let zeros := Z.to_nat ((55 - len) mod 64) in
  let bits := (8 * len) mod 2 ^ 64 in
  0x80 :: repeat 0 zeros ++ encode (bits mod 2 ^ 32) ++ encode (bits / 2 ^ 32).

Fixpoint blocks (fuel : nat) (st : state) (bs : list Z) : state :=
  match fuel, bs with
  | O, _ | _, [] => st
  | Datatypes.S fuel', _ =>
      blocks fuel' (transform st (decode (firstn 64 bs))) (skipn 64 bs)
  end.

Definition md5 (msg : list byte) : list byte :=
  let bs := map byte_to_Z msg in
  let padded := bs ++ padding (Z.of_nat (List.length msg)) in
  let st := blocks (List.length padded) init padded in
  map byte_of_Z (encode (sa st) ++ encode (sb st) ++ encode (sc st) ++ encode (sd st)).

End MD5.

Definition hex_digest (h : list Z) : list byte := map byte_of_Z h.

(** The test suite of RFC 1321, appendix A.5. *)
Example md5_empty :
  MD5.md5 (cstr "") =
  hex_digest [0xd4; 0x1d; 0x8c; 0xd9; 0x8f; 0x00; 0xb2; 0x04;
              0xe9; 0x80; 0x09; 0x98; 0xec; 0xf8; 0x42; 0x7e].
Proof. vm_compute. reflexivity. Qed.

Example md5_abc :
  MD5.md5 (cstr "abc") =
  hex_digest [0x90; 0x01; 0x50; 0x98; 0x3c; 0xd2; 0x4f; 0xb0;
              0xd6; 0x96; 0x3f; 0x7d; 0x28; 0xe1; 0x7f; 0x72].
Proof. vm_compute. reflexivity. Qed.

Example md5_digits :
  MD5.md5 (cstr "12345678901234567890123456789012345678901234567890123456789012345678901234567890") =
  hex_digest [0x57; 0xed; 0xf4; 0xa2; 0x2b; 0xe3; 0xc9; 0x55;
              0xac; 0x49; 0xda; 0x2e; 0x21; 0x07; 0xb6; 0x7a].
Proof. vm_compute. reflexivity. Qed.


(** ** Outcomes of a call *)

Inductive outcome (A : Type) : Type :=
| Ret (a : A)      (* the call returns [a] *)
| Abort            (* an [assert] of the function fails *)
| Undefined        (* undefined behaviour: NULL or out-of-bounds access *)
| OutOfFuel.       (* the iteration budget of the model is used up *)

Arguments Ret {A} a.
Arguments Abort {A}.
Arguments Undefined {A}.
Arguments OutOfFuel {A}.

Definition bind {A B : Type} (m : outcome A) (k : A -> outcome B) : outcome B :=
  match m with
  | Ret a => k a
  | Abort => Abort
  | Undefined => Undefined
  | OutOfFuel => OutOfFuel
  end.

Notation "x <- m ;; k" := (bind m (fun x => k))
  (at level 61, m at next level, right associativity).
Notation "' pat <- m ;; k" := (bind m (fun x => match x with pat => k end))
  (at level 61, pat pattern, m at next level, right associativity).

(** A [for] loop whose body appends to an output array: the bodies run in
    order and the first one that does not return ends the loop. *)
Fixpoint for_each {A B : Type} (body : A -> outcome (list B)) (l : list A)
  : outcome (list B) :=
  match l with
  | [] => Ret []
  | a :: rest =>
      out <- body a ;;
      outs <- for_each body rest ;;
      Ret (out ++ outs)
  end.

(** [0, 1, ..., n-1] as C integers. *)
Definition range (n : Z) : list Z := map Z.of_nat (seq 0 (Z.to_nat n)).

(** ** The allocator *)

(** The answers the allocator gives to the coming requests ([true]: the
    request is served); once the list is used up every request is served. *)
Definition heap := list bool.

Definition alloc (h : heap) : bool * heap :=
  match h with
  | [] => (true, [])
  | served :: h' => (served, h')
  end.

(** ** Data model *)

(** [struct server_item]; [hostport] is [None] for a NULL pointer. *)
Record server_item := mk_server { hostport : option (list byte) }.

(** [struct continuum_item]. *)
Record continuum_item := mk_point {
  index : Z;    (* server index *)
  point : Z     (* point on the ketama continuum *)
}.

(** [struct cluster_config], without its lock and logger. *)
Record cluster_config := mk_config {
  self_id : Z;
  self_hostport : option (list byte);
  num_servers : Z;
  num_continuum : Z;
  servers : option (list server_item);
  continuum : option (list continuum_item);
  is_valid : bool
}.

Definition to_uint32 (x : Z) : Z := x mod 2 ^ 32.

(** [continuum_item_cmp], the comparison handed to [qsort]. *)
Definition continuum_item_cmp (ct1 ct2 : continuum_item) : Z :=
  if point ct1 =? point ct2 then 0
  else if point ct1 >? point ct2 then 1
  else -1.

Definition total_preorder {A : Type} (cmp : A -> A -> Z) : Prop :=
  (forall a b, cmp a b <= 0 \/ cmp b a <= 0) /\
  (forall a b c, cmp a b <= 0 -> cmp b c <= 0 -> cmp a c <= 0).

(** ** What the file takes from outside

    - [MAX_SERVER_ITEM_COUNT] is defined in [cluster_config.h];
    - [MD5] stands for [MD5Init], [MD5Update], [MD5Final] of
      [rfc1321/md5c.c], which fill a 16-byte digest;
    - [qsort] is the C library's: it reorders the array so that it is
      sorted for the given comparison, and promises nothing about the order
      of elements that compare equal. *)
Class Env := {
  MAX_SERVER_ITEM_COUNT : Z;
  MD5 : list byte -> list byte;
  MD5_length : forall msg, List.length (MD5 msg) = 16%nat;
  qsort : (continuum_item -> continuum_item -> Z) ->
          list continuum_item -> list continuum_item;
  qsort_permutation : forall cmp l, Permutation l (qsort cmp l);
  qsort_sorted : forall cmp l, total_preorder cmp ->
                 Sorted (fun a b => cmp a b <= 0) (qsort cmp l)
}.

(** ** C library functions on strings *)

(** The character at offset [i]; past the list stands the terminator. *)
Definition char_at (s : list byte) (i : nat) : byte := nth i s NUL.

Definition store (s : list byte) (i : nat) (b : byte) : list byte :=
  firstn i s ++ b :: skipn (S i) s.

Definition mem_byte (b : byte) (set : list byte) : bool :=
  existsb (Byte.eqb b) (c_string set).

Fixpoint strspn (s accept : list byte) : nat :=
  match s with
  | [] => O
  | b :: s' =>
      if negb (is_nul b) && mem_byte b accept then S (strspn s' accept) else O
  end.

Fixpoint strcspn (s reject : list byte) : nat :=
  match s with
  | [] => O
  | b :: s' =>
      if is_nul b || mem_byte b reject then O else S (strcspn s' reject)
  end.

(** The first call [strtok_r(s, delim, &save)]: the offset of the token
    found, if any, and the buffer as the call leaves it.  The save pointer
    is not modelled: no second call is ever made on it. *)
Definition strtok_r (s delim : list byte) : option nat * list byte :=
  let start := strspn s delim in
  if is_nul (char_at s start) then (None, s)
  else
    let stop := (start + strcspn (skipn start s) delim)%nat in
    if is_nul (char_at s stop) then (Some start, s)
    else (Some start, store s stop NUL).

Fixpoint strcmp (s1 s2 : list byte) : Z :=
  match s1, s2 with
  | [], [] => 0
  | [], c2 :: _ => 0 - byte_to_Z c2
  | c1 :: _, [] => byte_to_Z c1
  | c1 :: s1', c2 :: s2' =>
      if Byte.eqb c1 c2
      then (if is_nul c1 then 0 else strcmp s1' s2')
      else byte_to_Z c1 - byte_to_Z c2
  end.

(** [strdup]: a fresh copy of the C string, or NULL. *)
Definition strdup (s : list byte) (h : heap) : option (list byte) * heap :=
  let (served, h') := alloc h in
  if served then (Some (c_string s), h') else (None, h').

(** [strndup]: a fresh copy of at most [n] bytes of the C string, or NULL. *)
Definition strndup (s : list byte) (n : Z) (h : heap) : option (list byte) * heap :=
  let (served, h') := alloc h in
  if served then (Some (firstn (Z.to_nat n) (c_string s)), h') else (None, h').

(** The digits that [%u] prints. *)
Definition utoa (n : Z) : list byte :=
  list_byte_of_string (NilZero.string_of_uint (N.to_uint (Z.to_N n))).

(** [snprintf(host, size, "%s-%u", hostport, hh)] followed by the read of
    [host_len] bytes of [host] that [hash_md5(host, host_len, digest)] makes:
    the bytes that get hashed.  [snprintf] returns the length of the whole
    text and stores its first [size - 1] bytes and a NUL, so the read takes
    the whole text when it fits, the cut text and its NUL when the text is
    [size] bytes long, and leaves the array when the text is longer.  A
    NULL [hostport] is undefined for [%s] in ISO C, and the model takes
    that reading; a C library that prints a placeholder instead lets the
    call go on, and the theorems below, which speak of calls that return in
    the model, say nothing of such a run. *)
Definition snprintf_host (size : Z) (hostport : option (list byte)) (hh : Z)
  : outcome (list byte) :=
  match hostport with
  | None => Undefined
  | Some s =>
      let text := c_string s ++ DASH :: utoa hh in
      let host_len := Z.of_nat (List.length text) in
      if host_len <? size then Ret text
      else if host_len =? size then Ret (firstn (Z.to_nat (size - 1)) text ++ [NUL])
      else Undefined
  end.

(** ** The functions of [cluster_config.c] *)

Section ClusterConfig.

Context {env : Env}.

(** [hash_md5(key, key_length, result)]: the digest of the first
    [key_length] bytes at [key]. *)
Definition hash_md5 (key : list byte) (key_length : Z) : list byte :=
  MD5 (firstn (Z.to_nat key_length) key).

(** [digest[i]], promoted to an integer. *)
Definition digest_at (digest : list byte) (i : Z) : Z :=
  byte_to_Z (nth (Z.to_nat i) digest NUL).

Definition hash_ketama (key : list byte) (key_length : Z) : Z :=
  let digest := hash_md5 key key_length in
  to_uint32 (Z.lor (Z.lor (Z.lor (Z.shiftl (digest_at digest 3) 24)
                                 (Z.shiftl (digest_at digest 2) 16))
                          (Z.shiftl (digest_at digest 1) 8))
                   (digest_at digest 0)).

Definition NUM_OF_HASHES : Z := 40.
Definition NUM_PER_HASH : Z := 4.

(** The point that the innermost loop stores for [nn]. *)
Definition continuum_point (digest : list byte) (nn : Z) : Z :=
  Z.lor (Z.lor (Z.lor
    (Z.shiftl (to_uint32 (Z.land (digest_at digest (3 + nn * NUM_PER_HASH)) 0xFF)) 24)
    (Z.shiftl (to_uint32 (Z.land (digest_at digest (2 + nn * NUM_PER_HASH)) 0xFF)) 16))
    (Z.shiftl (to_uint32 (Z.land (digest_at digest (1 + nn * NUM_PER_HASH)) 0xFF)) 8))
    (Z.land (digest_at digest (0 + nn * NUM_PER_HASH)) 0xFF).

(** The loops of [ketama_continuum_generate]: the array before [qsort]. *)
Definition hash_loop (ss : Z) (server : server_item) : outcome (list continuum_item) :=
  for_each (fun hh =>
      host <- snprintf_host (MAX_SERVER_ITEM_COUNT + 10) (hostport server) hh ;;
      let digest := hash_md5 host (Z.of_nat (List.length host)) in
      for_each (fun nn => Ret [mk_point ss (continuum_point digest nn)])
               (range NUM_PER_HASH))
    (range NUM_OF_HASHES).

Definition server_loop (servers : list server_item) : outcome (list continuum_item) :=
  for_each (fun '(ss, server) => hash_loop ss server)
           (combine (range (Z.of_nat (List.length servers))) servers).

(** [ketama_continuum_generate]: [None] when it returns false, else the
    continuum and its length. *)
Definition ketama_continuum_generate (servers : list server_item) (h : heap)
  : outcome (option (list continuum_item * Z) * heap) :=
  let (served, h') := alloc h in
  if negb served then Ret (None, h')
  else
    unsorted <- server_loop servers ;;
    let pp := Z.of_nat (List.length unsorted) in
    Ret (Some (qsort continuum_item_cmp unsorted, pp), h').

(** The state of the scan of [server_item_populate]. *)
Record populate_state := mk_populate {
  scanned : list (list byte);    (* server_list[0..i) as the scan left it *)
  filled : list server_item;     (* the entries 0..i-1 of the new array *)
  found_self : Z;                (* the value behind self_id *)
  heap_left : heap
}.

(** A round of the scan goes on to the next token, or the function
    returns false from inside the loop. *)
Inductive scan : Type :=
| Continue (st : populate_state)
| Failed (h : heap).

(** One round of the outer loop, on token [i]: the scan after it, and the
    token's buffer as [strtok_r] left it.  The inner [for] runs its body at
    most once, for the first token [strtok_r] finds, because the body ends
    in [break]; when there is no token the entry keeps the NULL that
    [calloc] put there. *)
Definition populate_token (self_hostport : option (list byte))
    (i : Z) (token : list byte) (st : populate_state)
  : outcome (scan * list byte) :=
  let '(tok, token') := strtok_r token (cstr "-") in
  match tok with
  | None =>
      Ret (Continue (mk_populate (scanned st ++ [token'])
                                 (filled st ++ [mk_server None])
                                 (found_self st) (heap_left st)), token')
  | Some _ =>
      let '(copy, h') := strdup token' (heap_left st) in
      match copy with
      | None => Ret (Failed h', token')
      | Some hostport =>
          match self_hostport with
          | None => Undefined
          | Some self =>
              let self_id' :=
                if strcmp self hostport =? 0 then i else found_self st in
              Ret (Continue (mk_populate (scanned st ++ [token'])
                                         (filled st ++ [mk_server (Some hostport)])
                                         self_id' h'), token')
          end
      end
  end.

(** The outer loop from token [i] on.  The result carries the whole
    [server_list] as the loop leaves it. *)
Fixpoint populate_loop (self_hostport : option (list byte)) (i : Z)
    (rest : list (list byte)) (st : populate_state)
  : outcome (scan * list (list byte)) :=
  match rest with
  | [] => Ret (Continue st, scanned st)
  | token :: rest' =>
      '(next, token') <- populate_token self_hostport i token st ;;
      match next with
      | Failed h => Ret (Failed h, scanned st ++ token' :: rest')
      | Continue st' => populate_loop self_hostport (i + 1) rest' st'
      end
  end.

(** [server_item_populate]: what it returns ([None] for false, else the
    server array and the value behind [self_id]), the caller's
    [server_list] after the call, and the allocator. *)
Definition server_item_populate (server_list : list (list byte))
    (self_hostport : option (list byte)) (self_id : Z) (h : heap)
  : outcome (option (list server_item * Z) * list (list byte) * heap) :=
  let (served, h') := alloc h in
  if negb served then Ret (None, server_list, h')
  else
    '(final, server_list') <-
      populate_loop self_hostport 0 server_list (mk_populate [] [] self_id h') ;;
    match final with
    | Failed h'' => Ret (None, server_list', h'')
    | Continue st => Ret (Some (filled st, found_self st), server_list', heap_left st)
    end.

(** [cluster_config_init]: the zeroed structure that [calloc] hands out,
    or NULL. *)
Definition cluster_config_init (h : heap) : option cluster_config * heap :=
  let (served, h') := alloc h in
  if negb served then (None, h')
  else (Some (mk_config 0 None 0 0 None None false), h').

Definition cluster_config_self_id (config : cluster_config) : Z := self_id config.
Definition cluster_config_num_servers (config : cluster_config) : Z := num_servers config.
Definition cluster_config_num_continuum (config : cluster_config) : Z := num_continuum config.
Definition cluster_config_is_valid (config : cluster_config) : bool := is_valid config.

Definition cluster_config_set_hostport (config : cluster_config)
    (hostport : list byte) (hostport_len : Z) (h : heap)
  : outcome (cluster_config * heap) :=
  if hostport_len <=? 0 then Abort
  else
    let '(copy, h') := strndup hostport hostport_len h in
    Ret (mk_config (self_id config) copy (num_servers config) (num_continuum config)
                   (servers config) (continuum config) (is_valid config), h').

(** The block at the label [RECONFIG_FAILED]. *)
Definition reconfig_failed (config : cluster_config) : cluster_config :=
  mk_config (self_id config) (self_hostport config) (num_servers config)
            (num_continuum config) (servers config) (continuum config) false.

(** [cluster_config_reconfigure]: the value returned, the configuration, the
    caller's [server_list] and the allocator after the call.  [num_servers]
    is the length of [server_list]. *)
Definition cluster_config_reconfigure (config : cluster_config)
    (server_list : list (list byte)) (h : heap)
  : outcome (bool * cluster_config * list (list byte) * heap) :=
  let num_servers := Z.of_nat (List.length server_list) in
  let self_id := 0 in
  '(populated, server_list', h1) <-
    server_item_populate server_list (self_hostport config) self_id h ;;
  match populated with
  | None => Ret (false, reconfig_failed config, server_list', h1)
  | Some (servers, self_id) =>
      '(generated, h2) <- ketama_continuum_generate servers h1 ;;
      match generated with
      | None => Ret (false, reconfig_failed config, server_list', h2)
      | Some (continuum, num_continuum) =>
          Ret (true,
               mk_config self_id (self_hostport config) num_servers num_continuum
                         (Some servers) (Some continuum) true,
               server_list', h2)
      end
  end.

(** A read of [*p] for a pointer [p] into the continuum array. *)
Definition deref (ring : list continuum_item) (p : Z) : outcome continuum_item :=
  if (0 <=? p) && (p <? Z.of_nat (List.length ring))
  then match nth_error ring (Z.to_nat p) with
       | Some item => Ret item
       | None => Undefined
       end
  else Undefined.

(** How one round of the [while (1)] loop ends. *)
Inductive iteration : Type :=
| Break (server : Z)        (* [server] is set and the loop is left *)
| Again (lowp highp : Z).   (* the limits for the next round *)

(** One round of the loop; [beginp] is index 0. *)
Definition search_step (ring : list continuum_item) (endp digest lowp highp : Z)
  : outcome iteration :=
  let midp := lowp + Z.quot (highp - lowp) 2 in
  if midp =? endp then
    first <- deref ring 0 ;;
    Ret (Break (index first))
  else
    at_mid <- deref ring midp ;;
    let mid := point at_mid in
    prev <- (if midp =? 0 then Ret 0
             else before <- deref ring (midp - 1) ;; Ret (point before)) ;;
    if (digest <=? mid) && (digest >? prev) then Ret (Break (index at_mid))
    else
      let '(lowp', highp') :=
        if mid <? digest then (midp + 1, highp) else (lowp, midp - 1) in
      if lowp' >? highp' then
        first <- deref ring 0 ;;
        Ret (Break (index first))
      else Ret (Again lowp' highp').

Fixpoint search_loop (fuel : nat) (ring : list continuum_item)
    (endp digest lowp highp : Z) : outcome Z :=
  match fuel with
  | O => OutOfFuel
  | S fuel' =>
      it <- search_step ring endp digest lowp highp ;;
      match it with
      | Break server => Ret server
      | Again lowp' highp' => search_loop fuel' ring endp digest lowp' highp'
      end
  end.

(** [cluster_config_key_is_mine]: the value returned, and the pair stored
    through [key_id] and [self_id] where the call reaches these stores
    ([None] where it returns before them).  [fuel] bounds the rounds of the
    loop. *)
Definition cluster_config_key_is_mine (fuel : nat) (config : cluster_config)
    (key : list byte) (nkey : Z) : outcome (bool * option (Z * Z)) :=
  match continuum config with
  | None => Abort
  | Some ring =>
      if negb (is_valid config) then Ret (true, None)
      else
        let self := self_id config in
        let digest := hash_ketama key nkey in
        let endp := num_continuum config in
        server <- search_loop fuel ring endp digest 0 endp ;;
        Ret (server =? self, Some (server, self))
  end.

(** The operations on a handle, as its users call them. *)
Inductive operation : Type :=
| SetHostport (hostport : list byte) (hostport_len : Z) (h : heap)
| Reconfigure (server_list : list (list byte)) (h : heap)
| Resolve (fuel : nat) (key : list byte) (nkey : Z).

(** The handle after an operation; the lookup writes nothing to it. *)
Definition run (config : cluster_config) (op : operation) : outcome cluster_config :=
  match op with
  | SetHostport hostport hostport_len h =>
      '(config', _) <- cluster_config_set_hostport config hostport hostport_len h ;;
      Ret config'
  | Reconfigure server_list h =>
      '(_, config', _, _) <- cluster_config_reconfigure config server_list h ;;
      Ret config'
  | Resolve fuel key nkey =>
      _ <- cluster_config_key_is_mine fuel config key nkey ;;
      Ret config
  end.

(** The two stages of a reconfiguration that can make it fail. *)
Definition registry_fails (config : cluster_config)
    (server_list : list (list byte)) (h : heap) : Prop :=
  exists server_list' h',
    server_item_populate server_list (self_hostport config) 0 h
    = Ret (None, server_list', h').

Definition ring_builder_fails (config : cluster_config)
    (server_list : list (list byte)) (h : heap) : Prop :=
  exists srv self server_list' h1 h2,
    server_item_populate server_list (self_hostport config) 0 h
    = Ret (Some (srv, self), server_list', h1) /\
    ketama_continuum_generate srv h1 = Ret (None, h2).

End ClusterConfig.

(** ** The design document's descriptions, as definitions

    These follow the words of the document, not the code; the theorems
    below compare the two. *)

Section Described.

Context {env : Env}.

(** "extracts 4 bytes starting at [offset] and composes them little-endian
    (byte[offset] is least-significant)". *)
Definition pointFromDigest (digest : list byte) (offset : Z) : Z :=
  digest_at digest offset
  + 2 ^ 8 * digest_at digest (offset + 1)
  + 2 ^ 16 * digest_at digest (offset + 2)
  + 2 ^ 24 * digest_at digest (offset + 3).

(** "for [h] in 0..39, form the string <address>-<h>, compute its digest,
    and derive 4 ring points ... at byte offsets 0, 4, 8, 12", each with
    [server_index = s]. *)
Definition described_server_points (s : Z) (address : list byte) : list continuum_item :=
  flat_map (fun h =>
      let digest := MD5 (address ++ DASH :: utoa h) in
      map (fun n => mk_point s (pointFromDigest digest (4 * n))) [0; 1; 2; 3])
    (range 40).

Definition described_points (addresses : list (list byte)) : list continuum_item :=
  flat_map (fun '(s, address) => described_server_points s address)
           (combine (range (Z.of_nat (List.length addresses))) addresses).

(** The address of an entry of the server array. *)
Definition server_address (server : server_item) : list byte :=
  match hostport server with
  | Some address => c_string address
  | None => []
  end.

(** The entry has an address, and each of the 40 texts "<address>-<h>" is
    shorter than the array [host] that receives it. *)
Definition address_fits (server : server_item) : Prop :=
  hostport server <> None /\
  Z.of_nat (List.length (server_address server)) + 3 < MAX_SERVER_ITEM_COUNT + 10.

(** The points of a ring that carry the server index [s]. *)
Definition points_of (s : Z) (ring : list continuum_item) : list continuum_item :=
  filter (fun p => index p =? s) ring.

End Described.



(** The caller's buffer with the first separator that follows at least one
    non-separator character of the string overwritten by NUL; a buffer
    whose string has no such separator is returned as it is.  [seen] says
    whether a non-separator character has been passed. *)
Fixpoint overwrite_separator (seen : bool) (buf : list byte) : list byte :=
  match buf with
  | [] => []
  | b :: rest =>
      if is_nul b then buf
      else if Byte.eqb b DASH
           then (if seen then NUL :: rest else b :: overwrite_separator false rest)
           else b :: overwrite_separator true rest
  end.

Definition described_truncation (token : list byte) : list byte :=
  overwrite_separator false token.


(** What the registry stores for a token: nothing when [strtok_r] finds no
    token in it, else the copy of the buffer's string after [strtok_r]. *)
Definition registry_entry (token : list byte) : server_item :=
  match strtok_r token (cstr "-") with
  | (None, _) => mk_server None
  | (Some _, token') => mk_server (Some (c_string token'))
  end.


(** An entry of the server array holds the node's own address. *)
Definition own_address (self_hostport : option (list byte)) (entry : server_item) : Prop :=
  match self_hostport, hostport entry with
  | Some self, Some address => c_string self = c_string address
  | _, _ => False
  end.

(** ** Invariant of a valid handle *)

Definition ascending (ring : list continuum_item) : Prop :=
  StronglySorted (fun a b => point a <= point b) ring.

(** What the document promises of the installed state. *)
Record installed (config : cluster_config)
    (srv : list server_item) (ring : list continuum_item) : Prop := {
  installed_servers : servers config = Some srv;
  installed_ring : continuum config = Some ring;
  installed_num_servers : num_servers config = Z.of_nat (List.length srv);
  installed_num_continuum : num_continuum config = Z.of_nat (List.length ring);
  ring_length : List.length ring = (List.length srv * 160)%nat;
  ring_ascending : ascending ring;
  ring_indices : Forall (fun p => 0 <= index p < Z.of_nat (List.length srv)) ring
}.

Definition config_invariant (config : cluster_config) : Prop :=
  is_valid config = true -> exists srv ring, installed config srv ring.

(** ** The owner of a digest on a ring *)

(** The number of leading entries whose point lies below the digest. *)
Fixpoint rank (digest : Z) (ring : list continuum_item) : nat :=
  match ring with
  | [] => O
  | item :: rest => if digest <=? point item then O else S (rank digest rest)
  end.

(** The first entry whose point is not below the digest. *)
Fixpoint first_at_or_above (digest : Z) (ring : list continuum_item)
  : option continuum_item :=
  match ring with
  | [] => None
  | item :: rest =>
      if digest <=? point item then Some item else first_at_or_above digest rest
  end.

(** The entry that a digest falls to: the first entry at or above it, and
    the first entry of the ring when every point lies below it. *)
Definition successor (digest : Z) (ring : list continuum_item) : option continuum_item :=
  match first_at_or_above digest ring with
  | Some item => Some item
  | None => nth_error ring 0
  end.

(** A test of [ascending] by neighbours. *)
Fixpoint ascendingb (ring : list continuum_item) : bool :=
  match ring with
  | a :: (b :: _) as rest => (point a <=? point b) && ascendingb rest
  | _ => true
  end.

(** Entries of a ring that share a point belong to one server. *)
Definition ties_agree (ring : list continuum_item) : Prop :=
  forall a b, In a ring -> In b ring -> point a = point b -> index a = index b.

(** A test that the points of a ring increase strictly. *)
Fixpoint strictly_ascendingb (ring : list continuum_item) : bool :=
  match ring with
  | a :: (b :: _) as rest => (point a <? point b) && strictly_ascendingb rest
  | _ => true
  end.

(** Every coming request to the allocator is served. *)
Definition served (h : heap) : Prop := Forall (eq true) h.

(** The scan states agree on all but the buffers. *)
Definition same_scan (st1 st2 : populate_state) : Prop :=
  filled st1 = filled st2 /\ found_self st1 = found_self st2 /\
  heap_left st1 = heap_left st2.

(** ** Handles used in the examples *)

(** The handle that [cluster_config_init] returns. *)
Definition fresh_handle : cluster_config :=
  mk_config 0 None 0 0 None None false.

(** The handle after [cluster_config_set_hostport] with [address]. *)
Definition handle_for (address : string) : cluster_config :=
  mk_config 0 (Some (cstr address)) 0 0 None None false.

(** ** An instance of the environment

    The digest is RFC 1321's and [qsort] is a sort by insertion. *)

Fixpoint insert_sorted {A : Type} (cmp : A -> A -> Z) (x : A) (l : list A) : list A :=
  match l with
  | [] => [x]
  | y :: l' => if cmp x y <=? 0 then x :: l else y :: insert_sorted cmp x l'
  end.

Definition insertion_sort {A : Type} (cmp : A -> A -> Z) (l : list A) : list A :=
  fold_right (insert_sorted cmp) [] l.

(** * Properties *)

(** ** The sort by insertion meets [qsort]'s contract *)

Lemma insert_sorted_permutation {A : Type} (cmp : A -> A -> Z) (x : A) (l : list A) :
  Permutation (x :: l) (insert_sorted cmp x l).
Proof.
  induction l as [|y l IH]; simpl.
  - apply Permutation_refl.
  - destruct (cmp x y <=? 0).
    + apply Permutation_refl.
    + eapply perm_trans; [apply perm_swap|]. now apply perm_skip.
Qed.

Lemma insertion_sort_permutation {A : Type} (cmp : A -> A -> Z) (l : list A) :
  Permutation l (insertion_sort cmp l).
Proof.
  induction l as [|x l IH]; simpl.
  - constructor.
  - eapply perm_trans; [apply perm_skip, IH|]. apply insert_sorted_permutation.
Qed.

Lemma insert_sorted_hdrel {A : Type} (cmp : A -> A -> Z) (a x : A) (l : list A) :
  cmp a x <= 0 ->
  HdRel (fun u v => cmp u v <= 0) a l ->
  HdRel (fun u v => cmp u v <= 0) a (insert_sorted cmp x l).
Proof.
  intros Hax Hal. destruct l as [|y l]; simpl.
  - now constructor.
  - destruct (cmp x y <=? 0); constructor; trivial.
    now inversion Hal.
Qed.

Lemma insert_sorted_sorted {A : Type} (cmp : A -> A -> Z) (x : A) (l : list A) :
  total_preorder cmp ->
  Sorted (fun u v => cmp u v <= 0) l ->
  Sorted (fun u v => cmp u v <= 0) (insert_sorted cmp x l).
Proof.
  intros [Htotal _] Hl. induction Hl as [|y l Hl IH Hy]; simpl.
  - repeat constructor.
  - destruct (cmp x y <=? 0) eqn:Hxy.
    + constructor; [now constructor|]. constructor. now apply Z.leb_le.
    + constructor; trivial. apply insert_sorted_hdrel; trivial.
      apply Z.leb_gt in Hxy. destruct (Htotal x y); [lia | trivial].
Qed.

Lemma insertion_sort_sorted {A : Type} (cmp : A -> A -> Z) (l : list A) :
  total_preorder cmp ->
  Sorted (fun u v => cmp u v <= 0) (insertion_sort cmp l).
Proof.
  intros Hcmp. induction l as [|x l IH]; simpl.
  - constructor.
  - now apply insert_sorted_sorted.
Qed.

Lemma md5_length (msg : list byte) : List.length (MD5.md5 msg) = 16%nat.
Proof. reflexivity. Qed.

(** The environment used in the examples: RFC 1321's MD5, the sort by
    insertion, and a value for the header's constant. *)
Definition example_env (max_server_item_count : Z) : Env :=
  {| MAX_SERVER_ITEM_COUNT := max_server_item_count;
     MD5 := MD5.md5;
     MD5_length := md5_length;
     qsort := insertion_sort;
     qsort_permutation := insertion_sort_permutation;
     qsort_sorted := insertion_sort_sorted |}.

(** ** Bytes and strings *)

Lemma byte_eqb_refl (b : byte) : Byte.eqb b b = true.
Proof. now apply Byte.byte_dec_lb. Qed.

Lemma byte_to_Z_inj (a b : byte) : byte_to_Z a = byte_to_Z b -> a = b.
Proof.
  unfold byte_to_Z. intros H. apply N2Z.inj in H.
  assert (Ha := Byte.of_to_N a). rewrite H, Byte.of_to_N in Ha. congruence.
Qed.

Lemma byte_to_Z_range (b : byte) : 0 <= byte_to_Z b < 256.
Proof.
  unfold byte_to_Z. pose proof (Byte.to_N_bounded b). lia.
Qed.

Lemma byte_to_Z_nul (b : byte) : byte_to_Z b = 0 <-> is_nul b = true.
Proof.
  unfold is_nul. split; intros H.
  - apply Byte.byte_dec_lb, byte_to_Z_inj. exact H.
  - apply Byte.byte_dec_bl in H. now subst b.
Qed.

Lemma strcmp_zero (s1 s2 : list byte) :
  strcmp s1 s2 = 0 <-> c_string s1 = c_string s2.
Proof.
  revert s2. induction s1 as [|c1 s1 IH]; intros [|c2 s2]; simpl.
  - tauto.
  - destruct (is_nul c2) eqn:H2.
    + apply byte_to_Z_nul in H2. rewrite H2. tauto.
    + split; [|discriminate]. intros H.
      assert (byte_to_Z c2 = 0) as H0 by lia.
      apply byte_to_Z_nul in H0. congruence.
  - destruct (is_nul c1) eqn:H1.
    + apply byte_to_Z_nul in H1. tauto.
    + split; [|discriminate]. intros H. apply byte_to_Z_nul in H. congruence.
  - destruct (Byte.eqb c1 c2) eqn:Hc.
    + apply Byte.byte_dec_bl in Hc. subst c2.
      destruct (is_nul c1); [tauto|].
      rewrite IH. split; [congruence|]. now intros [= ->].
    + apply Byte.eqb_false in Hc.
      assert (byte_to_Z c1 - byte_to_Z c2 <> 0) as Hne.
      { intros H. apply Hc, byte_to_Z_inj. lia. }
      split; [tauto|]. intros H. exfalso.
      destruct (is_nul c1) eqn:H1, (is_nul c2) eqn:H2; try discriminate.
      * apply Byte.byte_dec_bl in H1, H2. congruence.
      * injection H. auto.
Qed.

Lemma c_string_idempotent (s : list byte) : c_string (c_string s) = c_string s.
Proof.
  induction s as [|b s IH]; simpl; trivial.
  destruct (is_nul b) eqn:Hb; simpl; trivial. now rewrite Hb, IH.
Qed.

(** ** The outcome monad *)

Lemma bind_ret_inv {A B : Type} (m : outcome A) (k : A -> outcome B) (b : B) :
  bind m k = Ret b -> exists a, m = Ret a /\ k a = Ret b.
Proof. destruct m; simpl; try discriminate. eauto. Qed.

Ltac bind_inv H :=
  let a := fresh "a" in
  let Hm := fresh "Hm" in
  apply bind_ret_inv in H; destruct H as [a [Hm H]].

Lemma for_each_ret {A B : Type} (f : A -> list B) (l : list A) :
  for_each (fun a => Ret (f a)) l = Ret (flat_map f l).
Proof.
  induction l as [|a l IH]; simpl; trivial. now rewrite IH.
Qed.

Lemma for_each_ext_in {A B : Type} (body : A -> outcome (list B)) (f : A -> list B)
    (l : list A) :
  (forall a, In a l -> body a = Ret (f a)) ->
  for_each body l = Ret (flat_map f l).
Proof.
  induction l as [|a l IH]; simpl; intros H; trivial.
  rewrite (H a) by auto. simpl. rewrite IH by auto. reflexivity.
Qed.

Lemma for_each_length {A B : Type} (body : A -> outcome (list B)) (n : nat)
    (l : list A) (out : list B) :
  (forall a o, In a l -> body a = Ret o -> List.length o = n) ->
  for_each body l = Ret out ->
  List.length out = (List.length l * n)%nat.
Proof.
  revert out. induction l as [|a l IH]; simpl; intros out Hn H.
  - now injection H as <-.
  - bind_inv H. bind_inv H. injection H as <-.
    rewrite length_app, (Hn a a0), (IH a1); auto.
    intros a2 o Ha2. apply Hn. now right.
Qed.

Lemma for_each_Forall {A B : Type} (body : A -> outcome (list B)) (P : B -> Prop)
    (l : list A) (out : list B) :
  (forall a o, In a l -> body a = Ret o -> Forall P o) ->
  for_each body l = Ret out ->
  Forall P out.
Proof.
  revert out. induction l as [|a l IH]; simpl; intros out HP H.
  - injection H as <-. constructor.
  - bind_inv H. bind_inv H. injection H as <-.
    apply Forall_app. split; [eapply HP | eapply IH]; eauto.
Qed.

(** ** [strtok_r] on the separator "-" *)

Lemma mem_byte_dash (b : byte) : mem_byte b (cstr "-") = Byte.eqb b DASH.
Proof. unfold mem_byte. cbn. apply orb_false_r. Qed.

Lemma store_cons (b : byte) (s : list byte) (i : nat) (x : byte) :
  store (b :: s) (S i) x = b :: store s i x.
Proof. reflexivity. Qed.

(** A leading separator is stepped over. *)
Lemma strtok_r_separator (b : byte) (rest : list byte) :
  is_nul b = false -> Byte.eqb b DASH = true ->
  strtok_r (b :: rest) (cstr "-") =
  (option_map S (fst (strtok_r rest (cstr "-"))), b :: snd (strtok_r rest (cstr "-"))).
Proof.
  intros Hnul Hdash. unfold strtok_r.
  cbn [strspn]. rewrite Hnul, mem_byte_dash, Hdash. cbn [negb andb].
  change (char_at (b :: rest) (S ?n)) with (char_at rest n).
  cbn [skipn Nat.add].
  destruct (is_nul (char_at rest (strspn rest (cstr "-")))); [reflexivity|].
  change (char_at (b :: rest) (S ?n)) with (char_at rest n).
  destruct (is_nul (char_at rest _)); reflexivity.
Qed.

(** After the first character of the token: up to the next separator. *)
Lemma overwrite_after_token (s : list byte) :
  overwrite_separator true s =
  if is_nul (char_at s (strcspn s (cstr "-"))) then s
  else store s (strcspn s (cstr "-")) NUL.
Proof.
  induction s as [|b s IH]; [reflexivity|].
  cbn [overwrite_separator strcspn]. rewrite mem_byte_dash.
  destruct (is_nul b) eqn:Hnul.
  - cbn [orb]. unfold char_at. cbn [nth]. now rewrite Hnul.
  - cbn [orb]. destruct (Byte.eqb b DASH) eqn:Hdash.
    + unfold char_at. cbn [nth]. now rewrite Hnul.
    + change (char_at (b :: s) (S ?n)) with (char_at s n).
      rewrite IH. destruct (is_nul (char_at s _)); reflexivity.
Qed.

(** A token that begins at the head of the buffer. *)
Lemma strtok_r_token (b : byte) (rest : list byte) :
  is_nul b = false -> Byte.eqb b DASH = false ->
  strtok_r (b :: rest) (cstr "-") = (Some O, b :: overwrite_separator true rest).
Proof.
  intros Hnul Hdash. unfold strtok_r.
  cbn [strspn]. rewrite Hnul, mem_byte_dash, Hdash. cbn [negb andb].
  unfold char_at at 1. cbn [nth]. rewrite Hnul.
  cbn [skipn Nat.add strcspn]. rewrite Hnul, mem_byte_dash, Hdash. cbn [orb].
  change (char_at (b :: rest) (S ?n)) with (char_at rest n).
  rewrite overwrite_after_token.
  destruct (is_nul (char_at rest _)); reflexivity.
Qed.

(** No token: the string is empty. *)
Lemma strtok_r_empty (s : list byte) :
  c_string s = [] -> strtok_r s (cstr "-") = (None, s).
Proof.
  intros Hs. unfold strtok_r. destruct s as [|b s]; [reflexivity|].
  cbn in Hs. destruct (is_nul b) eqn:Hnul; [|discriminate].
  cbn [strspn]. rewrite Hnul. cbn [negb andb]. unfold char_at. cbn [nth].
  now rewrite Hnul.
Qed.

(** What [strtok_r] leaves in the buffer is the described truncation. *)
Lemma strtok_r_buffer (token : list byte) :
  snd (strtok_r token (cstr "-")) = described_truncation token.
Proof.
  unfold described_truncation.
  induction token as [|b rest IH]; [reflexivity|].
  cbn [overwrite_separator].
  destruct (is_nul b) eqn:Hnul.
  - rewrite strtok_r_empty; [reflexivity|]. cbn. now rewrite Hnul.
  - destruct (Byte.eqb b DASH) eqn:Hdash.
    + rewrite strtok_r_separator by assumption. cbn [snd]. now rewrite IH.
    + now rewrite strtok_r_token.
Qed.



(** ** The scan of [server_item_populate] *)

Lemma populate_token_continue (self_hostport : option (list byte)) (i : Z)
    (token token' : list byte) (st st' : populate_state) :
  populate_token self_hostport i token st = Ret (Continue st', token') ->
  token' = described_truncation token /\
  scanned st' = scanned st ++ [token'] /\
  filled st' = filled st ++ [registry_entry token] /\
  (found_self st' = i /\ own_address self_hostport (registry_entry token) \/
   found_self st' = found_self st /\ ~ own_address self_hostport (registry_entry token)).
Proof.
  unfold populate_token, registry_entry, own_address.
  rewrite <- strtok_r_buffer.
  destruct (strtok_r token (cstr "-")) as [[start|] buf]; cbn [snd hostport].
  - unfold strdup. destruct (alloc (heap_left st)) as [[|] h']; [|discriminate].
    destruct self_hostport as [self|]; [|discriminate].
    intros [= <- <-]. cbn. repeat split.
    rewrite c_string_idempotent.
    destruct (strcmp self (c_string buf) =? 0) eqn:Hcmp.
    + left. split; trivial. apply Z.eqb_eq, strcmp_zero in Hcmp.
      now rewrite c_string_idempotent in Hcmp.
    + right. split; trivial. intros Heq. apply Z.eqb_neq in Hcmp. apply Hcmp.
      apply strcmp_zero. now rewrite c_string_idempotent.
  - intros [= <- <-]. cbn. repeat split. right. split; trivial.
    now destruct self_hostport.
Qed.

Lemma populate_token_buffer (self_hostport : option (list byte)) (i : Z)
    (token token' : list byte) (st : populate_state) (next : scan) :
  populate_token self_hostport i token st = Ret (next, token') ->
  token' = described_truncation token.
Proof.
  unfold populate_token. rewrite <- strtok_r_buffer.
  destruct (strtok_r token (cstr "-")) as [[start|] buf]; cbn [snd].
  - unfold strdup. destruct (alloc (heap_left st)) as [[|] h'].
    + destruct self_hostport; [|discriminate]. now intros [= _ <-].
    + now intros [= _ <-].
  - now intros [= _ <-].
Qed.

(** A scan that reaches the end has rewritten every buffer and filled one
    entry per token, in order. *)
Lemma populate_loop_continue (self_hostport : option (list byte))
    (rest : list (list byte)) :
  forall (i : Z) (st st' : populate_state) (server_list' : list (list byte)),
  populate_loop self_hostport i rest st = Ret (Continue st', server_list') ->
  server_list' = scanned st ++ map described_truncation rest /\
  scanned st' = server_list' /\
  filled st' = filled st ++ map registry_entry rest.
Proof.
  induction rest as [|token rest IH]; intros i st st' sl' H; cbn in H.
  - injection H as <- <-. now rewrite !app_nil_r.
  - bind_inv H. destruct a as [next token'].
    destruct next as [st1|h1]; [|discriminate].
    apply populate_token_continue in Hm. destruct Hm as (-> & Hsc & Hfi & _).
    apply IH in H. destruct H as (-> & Hsc' & Hfi').
    rewrite Hsc', Hfi', Hsc, Hfi, <- !app_assoc. cbn. auto.
Qed.

(** The scan leaves [*self_id] alone when no entry is the node's own. *)
Lemma populate_loop_no_self (self_hostport : option (list byte))
    (rest : list (list byte)) :
  forall (i : Z) (st st' : populate_state) (server_list' : list (list byte)),
  populate_loop self_hostport i rest st = Ret (Continue st', server_list') ->
  (forall token, In token rest -> ~ own_address self_hostport (registry_entry token)) ->
  found_self st' = found_self st.
Proof.
  induction rest as [|token rest IH]; intros i st st' sl' H Hno; cbn in H.
  - now injection H as <- <-.
  - bind_inv H. destruct a as [next token'].
    destruct next as [st1|h1]; [|discriminate].
    apply populate_token_continue in Hm. destruct Hm as (_ & _ & _ & Hself).
    apply IH in H; [|intros t Ht; apply Hno; now right].
    rewrite H. destruct Hself as [[_ Hown]|[Heq _]]; trivial.
    exfalso. apply (Hno token); [now left | trivial].
Qed.

(** The scan leaves in [*self_id] the index of the last entry that is the
    node's own. *)
Lemma populate_loop_last_self (self_hostport : option (list byte))
    (before : list (list byte)) (token : list byte) (after : list (list byte)) :
  forall (i : Z) (st st' : populate_state) (server_list' : list (list byte)),
  populate_loop self_hostport i (before ++ token :: after) st
    = Ret (Continue st', server_list') ->
  own_address self_hostport (registry_entry token) ->
  (forall later, In later after -> ~ own_address self_hostport (registry_entry later)) ->
  found_self st' = i + Z.of_nat (List.length before).
Proof.
  induction before as [|first before IH]; intros i st st' sl' H Hown Hlater.
  - cbn [app] in H. cbn in H. bind_inv H. destruct a as [next token'].
    destruct next as [st1|h1]; [|discriminate].
    apply populate_token_continue in Hm. destruct Hm as (_ & _ & _ & Hself).
    apply populate_loop_no_self in H; trivial. rewrite H.
    destruct Hself as [[-> _]|[_ Hnot]]; [cbn; lia | contradiction].
  - cbn in H. bind_inv H. destruct a as [next token'].
    destruct next as [st1|h1]; [|discriminate].
    apply IH in H; trivial. rewrite H. cbn [List.length]. lia.
Qed.

(** ** Little-endian composition *)

Lemma lor_disjoint_add (k a b : Z) :
  0 <= k -> (exists c, a = c * 2 ^ k) -> 0 <= b < 2 ^ k -> Z.lor a b = a + b.
Proof.
  intros Hk [c ->] Hb.
  assert (Z.land (c * 2 ^ k) b = 0) as Hland.
  { rewrite <- (Z.mod_small b (2 ^ k)) by lia.
    rewrite <- (Z.land_ones b k) by lia.
    rewrite (Z.land_comm b), Z.land_assoc, Z.land_ones by lia.
    rewrite Z.mod_mul by lia. apply Z.land_0_l. }
  rewrite <- Z.lxor_lor by exact Hland.
  symmetry. now apply Z.add_nocarry_lxor.
Qed.

Lemma compose_little_endian (d0 d1 d2 d3 : Z) :
  0 <= d0 < 256 -> 0 <= d1 < 256 -> 0 <= d2 < 256 -> 0 <= d3 < 256 ->
  Z.lor (Z.lor (Z.lor (Z.shiftl d3 24) (Z.shiftl d2 16)) (Z.shiftl d1 8)) d0
  = d0 + 2 ^ 8 * d1 + 2 ^ 16 * d2 + 2 ^ 24 * d3.
Proof.
  intros H0 H1 H2 H3. rewrite !Z.shiftl_mul_pow2 by lia.
  rewrite (lor_disjoint_add 24 (d3 * 2 ^ 24) (d2 * 2 ^ 16)); [|lia|now exists d3|lia].
  rewrite (lor_disjoint_add 16 _ (d1 * 2 ^ 8)); [|lia| |lia].
  2:{ exists (d3 * 2 ^ 8 + d2). lia. }
  rewrite (lor_disjoint_add 8 _ d0); [lia|lia| |lia].
  exists (d3 * 2 ^ 16 + d2 * 2 ^ 8 + d1). lia.
Qed.

Lemma mask_byte (d : Z) : 0 <= d < 256 -> Z.land d 0xFF = d.
Proof.
  intros Hd. change 0xFF with (Z.ones 8). rewrite Z.land_ones by lia.
  apply Z.mod_small. lia.
Qed.

Section Properties.

Context {env : Env}.

Lemma digest_at_range (digest : list byte) (i : Z) : 0 <= digest_at digest i < 256.
Proof. apply byte_to_Z_range. Qed.

(** The point stored for [nn] is the little-endian slice at offset [4 * nn]. *)
Lemma continuum_point_slice (digest : list byte) (nn : Z) :
  continuum_point digest nn = pointFromDigest digest (4 * nn).
Proof.
  unfold continuum_point, pointFromDigest, NUM_PER_HASH, to_uint32.
  rewrite !mask_byte by apply digest_at_range.
  rewrite !Z.mod_small
    by (pose proof (digest_at_range digest (3 + nn * 4));
        pose proof (digest_at_range digest (2 + nn * 4));
        pose proof (digest_at_range digest (1 + nn * 4)); lia).
  rewrite compose_little_endian by apply digest_at_range.
  replace (0 + nn * 4) with (4 * nn) by lia.
  replace (1 + nn * 4) with (4 * nn + 1) by lia.
  replace (2 + nn * 4) with (4 * nn + 2) by lia.
  replace (3 + nn * 4) with (4 * nn + 3) by lia.
  reflexivity.
Qed.

(** The key's point is the little-endian slice at offset 0 of its digest. *)
Lemma hash_ketama_slice (key : list byte) (nkey : Z) :
  hash_ketama key nkey = pointFromDigest (hash_md5 key nkey) 0.
Proof.
  unfold hash_ketama, pointFromDigest, to_uint32.
  rewrite compose_little_endian by apply digest_at_range.
  cbn [Z.add].
  pose proof (digest_at_range (hash_md5 key nkey) 0).
  pose proof (digest_at_range (hash_md5 key nkey) 1).
  pose proof (digest_at_range (hash_md5 key nkey) 2).
  pose proof (digest_at_range (hash_md5 key nkey) 3).
  apply Z.mod_small. lia.
Qed.

Lemma hash_ketama_range (key : list byte) (nkey : Z) :
  0 <= hash_ketama key nkey < 2 ^ 32.
Proof. unfold hash_ketama, to_uint32. apply Z.mod_pos_bound. lia. Qed.

End Properties.

(** ** The loops of [ketama_continuum_generate] *)

Lemma range_length (n : nat) : List.length (range (Z.of_nat n)) = n.
Proof. unfold range. now rewrite length_map, length_seq, Nat2Z.id. Qed.

Lemma range_bounds (n x : Z) : In x (range n) -> 0 <= x < n.
Proof.
  unfold range. intros H. apply in_map_iff in H. destruct H as (k & <- & Hk).
  apply in_seq in Hk. lia.
Qed.

Lemma utoa_two_digits (hh : Z) :
  In hh (range 40) -> (List.length (utoa hh) <= 2)%nat.
Proof.
  assert (forallb (fun h => (List.length (utoa h) <=? 2)%nat) (range 40) = true) as H
    by (vm_compute; reflexivity).
  intros Hin. rewrite forallb_forall in H. apply Nat.leb_le. now apply H.
Qed.

Section Generate.

Context {env : Env}.

Lemma hash_md5_whole (host : list byte) :
  hash_md5 host (Z.of_nat (List.length host)) = MD5 host.
Proof. unfold hash_md5. now rewrite Nat2Z.id, firstn_all. Qed.

Lemma point_loop (ss : Z) (digest : list byte) :
  for_each (fun nn => Ret [mk_point ss (continuum_point digest nn)]) (range NUM_PER_HASH)
  = Ret (map (fun n => mk_point ss (pointFromDigest digest (4 * n))) [0; 1; 2; 3]).
Proof.
  rewrite for_each_ret. change (range NUM_PER_HASH) with [0; 1; 2; 3].
  cbn [flat_map map app]. now rewrite !continuum_point_slice.
Qed.

(** Whatever the addresses, a server's 40 rounds that return leave 160
    points, all with the server's index. *)
Lemma hash_loop_shape (ss : Z) (server : server_item) (points : list continuum_item) :
  hash_loop ss server = Ret points ->
  List.length points = 160%nat /\ Forall (fun p => index p = ss) points.
Proof.
  intros H. split.
  - change 160%nat with (List.length (range NUM_OF_HASHES) * 4)%nat.
    eapply for_each_length; [|exact H].
    intros hh o _ Ho. bind_inv Ho. rewrite point_loop in Ho. now injection Ho as <-.
  - eapply for_each_Forall; [|exact H].
    intros hh o _ Ho. bind_inv Ho. rewrite point_loop in Ho. injection Ho as <-.
    repeat constructor.
Qed.

Lemma server_loop_shape (srv : list server_item) (unsorted : list continuum_item) :
  server_loop srv = Ret unsorted ->
  List.length unsorted = (List.length srv * 160)%nat /\
  Forall (fun p => 0 <= index p < Z.of_nat (List.length srv)) unsorted.
Proof.
  unfold server_loop. intros H. split.
  - rewrite (fun Hn => for_each_length _ 160%nat _ _ Hn H).
    + now rewrite length_combine, range_length, Nat.min_id.
    + intros [ss server] o _ Ho. now apply hash_loop_shape in Ho.
  - eapply for_each_Forall; [|exact H].
    intros [ss server] o Hin Ho. apply hash_loop_shape in Ho. destruct Ho as [_ Ho].
    apply in_combine_l, range_bounds in Hin.
    eapply Forall_impl; [|exact Ho]. cbn. intros p ->. exact Hin.
Qed.

(** With addresses that fit, the text hashed is "<address>-<h>". *)
Lemma snprintf_host_fits (server : server_item) (hh : Z) :
  address_fits server -> In hh (range 40) ->
  snprintf_host (MAX_SERVER_ITEM_COUNT + 10) (hostport server) hh
  = Ret (server_address server ++ DASH :: utoa hh).
Proof.
  unfold address_fits, server_address, snprintf_host.
  intros [Hsome Hlen] Hhh. destruct (hostport server) as [address|]; [|congruence].
  apply utoa_two_digits in Hhh.
  rewrite length_app. cbn [List.length].
  destruct (Z.ltb_spec (Z.of_nat (List.length (c_string address)
                                  + S (List.length (utoa hh))))
                       (MAX_SERVER_ITEM_COUNT + 10)); [reflexivity | lia].
Qed.

Lemma hash_loop_described (ss : Z) (server : server_item) :
  address_fits server ->
  hash_loop ss server = Ret (described_server_points ss (server_address server)).
Proof.
  intros Hfits. unfold hash_loop, described_server_points.
  apply for_each_ext_in. intros hh Hhh.
  rewrite snprintf_host_fits by assumption. cbn [bind].
  rewrite hash_md5_whole. apply point_loop.
Qed.

Lemma server_loop_described_from (idx : list Z) (srv : list server_item) :
  Forall address_fits srv ->
  for_each (fun '(ss, server) => hash_loop ss server) (combine idx srv)
  = Ret (flat_map (fun '(s, address) => described_server_points s address)
                  (combine idx (map server_address srv))).
Proof.
  intros Hfits. revert idx. induction Hfits as [|server srv Hs _ IH]; intros [|ss idx];
    try reflexivity.
  cbn [combine map for_each flat_map].
  rewrite hash_loop_described by assumption. cbn [bind]. now rewrite IH.
Qed.

Lemma server_loop_described (srv : list server_item) :
  Forall address_fits srv ->
  server_loop srv = Ret (described_points (map server_address srv)).
Proof.
  intros Hfits. unfold server_loop, described_points.
  rewrite length_map. now apply server_loop_described_from.
Qed.

(** Each of the described blocks has 160 points with the server's index. *)
Lemma described_server_points_shape (s : Z) (address : list byte) :
  List.length (described_server_points s address) = 160%nat /\
  Forall (fun p => index p = s) (described_server_points s address).
Proof.
  split; [reflexivity|].
  unfold described_server_points. apply Forall_flat_map, Forall_forall.
  intros h _. repeat constructor.
Qed.

Lemma points_of_block (s ss : Z) (block : list continuum_item) :
  Forall (fun p => index p = ss) block ->
  points_of s block = if ss =? s then block else [].
Proof.
  unfold points_of. induction 1 as [|p block Hp _ IH]; cbn.
  - now destruct (ss =? s).
  - rewrite Hp, IH. now destruct (ss =? s).
Qed.

Lemma points_of_described_from (s : Z) (addresses : list (list byte)) :
  forall start : nat,
  List.length (points_of s
    (flat_map (fun '(ss, address) => described_server_points ss address)
       (combine (map Z.of_nat (seq start (List.length addresses))) addresses)))
  = if (Z.of_nat start <=? s) && (s <? Z.of_nat (start + List.length addresses))
    then 160%nat else 0%nat.
Proof.
  induction addresses as [|address addresses IH]; intros start.
  - cbn. destruct (Z.of_nat start <=? s) eqn:H1; trivial.
    cbn. destruct (Z.ltb_spec s (Z.of_nat (start + 0))); trivial.
    apply Z.leb_le in H1. lia.
  - cbn [List.length seq map combine flat_map].
    unfold points_of in *. rewrite filter_app, length_app.
    fold (points_of s (described_server_points (Z.of_nat start) address)).
    rewrite (points_of_block s (Z.of_nat start))
      by apply described_server_points_shape.
    rewrite IH.
    destruct (described_server_points_shape (Z.of_nat start) address) as [Hlen _].
    destruct (Z.eqb_spec (Z.of_nat start) s) as [Heq|Hne]; [rewrite Hlen|];
      cbn [List.length];
      repeat match goal with
             | |- context [?a <=? ?b] => destruct (Z.leb_spec a b)
             | |- context [?a <? ?b] => destruct (Z.ltb_spec a b)
             end; cbn [andb Nat.add]; lia.
Qed.

End Generate.

(** ** The comparison and the sorted ring *)

Lemma continuum_item_cmp_le (a b : continuum_item) :
  continuum_item_cmp a b <= 0 <-> point a <= point b.
Proof.
  unfold continuum_item_cmp.
  destruct (Z.eqb_spec (point a) (point b)); [lia|].
  destruct (Z.gtb_spec (point a) (point b)); lia.
Qed.

Lemma continuum_item_cmp_preorder : total_preorder continuum_item_cmp.
Proof.
  split; intros; rewrite !continuum_item_cmp_le in *; lia.
Qed.

Lemma qsort_ascending {env : Env} (unsorted : list continuum_item) :
  ascending (qsort continuum_item_cmp unsorted).
Proof.
  unfold ascending.
  assert (Sorted (fun a b => point a <= point b) (qsort continuum_item_cmp unsorted)) as H.
  { pose proof (qsort_sorted continuum_item_cmp unsorted continuum_item_cmp_preorder) as Hs.
    induction Hs as [|a l _ IH Hd]; constructor; trivial.
    destruct Hd; constructor. now apply continuum_item_cmp_le. }
  apply Sorted_StronglySorted; trivial.
  intros a b c. lia.
Qed.

(** ** The binary search *)

Lemma midpoint_bounds (lowp highp : Z) :
  lowp <= highp ->
  lowp <= lowp + Z.quot (highp - lowp) 2 <= highp /\
  (lowp < highp -> lowp + Z.quot (highp - lowp) 2 < highp).
Proof. intros H. Z.to_euclidean_division_equations. lia. Qed.

Lemma deref_in_bounds (ring : list continuum_item) (p : Z) :
  0 <= p < Z.of_nat (List.length ring) ->
  exists item, deref ring p = Ret item /\ nth_error ring (Z.to_nat p) = Some item.
Proof.
  intros Hp. unfold deref.
  destruct (Z.leb_spec 0 p); [|lia].
  destruct (Z.ltb_spec p (Z.of_nat (List.length ring))); [|lia]. cbn [andb].
  destruct (nth_error ring (Z.to_nat p)) as [item|] eqn:Hnth; [eauto|].
  apply nth_error_None in Hnth. lia.
Qed.

Lemma deref_first (ring : list continuum_item) (first : continuum_item) :
  nth_error ring 0 = Some first -> deref ring 0 = Ret first.
Proof.
  intros H. destruct ring as [|item ring]; [discriminate|].
  injection H as ->. reflexivity.
Qed.

(** One round on a ring that is not empty, with limits inside the array:
    the round ends the loop, or it hands on limits that lie inside the old
    ones and are strictly closer together. *)
Lemma search_step_progress (ring : list continuum_item) (digest lowp highp : Z) :
  ring <> [] ->
  0 <= lowp -> lowp <= highp -> highp <= Z.of_nat (List.length ring) ->
  (exists server,
      search_step ring (Z.of_nat (List.length ring)) digest lowp highp
      = Ret (Break server)) \/
  (exists lowp' highp',
      search_step ring (Z.of_nat (List.length ring)) digest lowp highp
      = Ret (Again lowp' highp') /\
      lowp <= lowp' /\ lowp' <= highp' /\ highp' <= highp /\
      highp' - lowp' < highp - lowp).
Proof.
  intros Hne Hlow Hle Hhigh. unfold search_step.
  destruct (midpoint_bounds lowp highp Hle) as [Hmid Hstrict].
  set (midp := lowp + Z.quot (highp - lowp) 2) in *.
  destruct ring as [|first ring']; [contradiction|].
  set (ring := first :: ring') in *.
  assert (deref ring 0 = Ret first) as Hfirst by reflexivity.
  destruct (Z.eqb_spec midp (Z.of_nat (List.length ring))) as [Hend|Hend].
  { rewrite Hfirst. left. cbn [bind]. eauto. }
  destruct (deref_in_bounds ring midp) as (at_mid & -> & _); [lia|]. cbn [bind].
  assert (exists prev,
    (if midp =? 0 then Ret 0
     else before <- deref ring (midp - 1) ;; Ret (point before)) = Ret prev)
    as [prev ->].
  { destruct (Z.eqb_spec midp 0); [eauto|].
    destruct (deref_in_bounds ring (midp - 1)) as (before & -> & _); [lia|].
    cbn [bind]. eauto. }
  cbn [bind].
  destruct ((digest <=? point at_mid) && (digest >? prev)); [left; eauto|].
  destruct (point at_mid <? digest).
  - destruct (Z.gtb_spec (midp + 1) highp).
    + rewrite Hfirst. left. cbn [bind]. eauto.
    + right. exists (midp + 1), highp. repeat split; lia.
  - destruct (Z.gtb_spec lowp (midp - 1)).
    + rewrite Hfirst. left. cbn [bind]. eauto.
    + right. exists lowp, (midp - 1). repeat split; lia.
Qed.

(** The loop ends within as many rounds as the limits are apart, plus one. *)
Lemma search_loop_terminates (ring : list continuum_item) (digest : Z) :
  ring <> [] ->
  forall (fuel : nat) (lowp highp : Z),
  0 <= lowp -> lowp <= highp -> highp <= Z.of_nat (List.length ring) ->
  highp - lowp < Z.of_nat fuel ->
  exists server,
    search_loop fuel ring (Z.of_nat (List.length ring)) digest lowp highp = Ret server.
Proof.
  intros Hne. induction fuel as [|fuel IH]; intros lowp highp Hlow Hle Hhigh Hfuel.
  - lia.
  - cbn [search_loop].
    destruct (search_step_progress ring digest lowp highp Hne Hlow Hle Hhigh)
      as [[server ->]|(lowp' & highp' & -> & H1 & H2 & H3 & H4)]; cbn [bind].
    + eauto.
    + apply IH; lia.
Qed.

(** More rounds than needed change nothing. *)
Lemma search_loop_more_fuel (ring : list continuum_item) (endp digest : Z) :
  forall (fuel fuel' : nat) (lowp highp server : Z),
  search_loop fuel ring endp digest lowp highp = Ret server ->
  (fuel <= fuel')%nat ->
  search_loop fuel' ring endp digest lowp highp = Ret server.
Proof.
  induction fuel as [|fuel IH]; intros fuel' lowp highp server H Hle; [discriminate|].
  destruct fuel' as [|fuel']; [lia|]. cbn [search_loop] in *.
  destruct (search_step ring endp digest lowp highp) as [[s|l' h']| | |];
    cbn [bind] in *; try discriminate; trivial.
  apply IH with (fuel' := fuel') in H; [trivial | lia].
Qed.

(** A digest above every point: the lower limit climbs to the end of the
    array and the first entry is taken. *)
Lemma search_loop_wraps (ring : list continuum_item) (first : continuum_item)
    (digest : Z) :
  nth_error ring 0 = Some first ->
  (forall p, In p ring -> point p < digest) ->
  forall (fuel : nat) (lowp : Z),
  0 <= lowp <= Z.of_nat (List.length ring) ->
  Z.of_nat (List.length ring) - lowp < Z.of_nat fuel ->
  search_loop fuel ring (Z.of_nat (List.length ring)) digest lowp
              (Z.of_nat (List.length ring)) = Ret (index first).
Proof.
  intros Hfirst Habove. induction fuel as [|fuel IH]; intros lowp Hlow Hfuel; [lia|].
  cbn [search_loop]. unfold search_step.
  destruct (midpoint_bounds lowp (Z.of_nat (List.length ring))) as [Hmid Hstrict]; [lia|].
  set (midp := lowp + Z.quot (Z.of_nat (List.length ring) - lowp) 2) in *.
  destruct (Z.eqb_spec midp (Z.of_nat (List.length ring))) as [Hend|Hend].
  { now rewrite (deref_first ring first). }
  destruct (deref_in_bounds ring midp) as (at_mid & -> & Hnth); [lia|]. cbn [bind].
  apply nth_error_In, Habove in Hnth.
  assert (exists prev,
    (if midp =? 0 then Ret 0
     else before <- deref ring (midp - 1) ;; Ret (point before)) = Ret prev)
    as [prev ->].
  { destruct (Z.eqb_spec midp 0); [eauto|].
    destruct (deref_in_bounds ring (midp - 1)) as (before & -> & _); [lia|].
    cbn [bind]. eauto. }
  cbn [bind].
  destruct (Z.leb_spec digest (point at_mid)); [lia|]. cbn [andb].
  destruct (Z.ltb_spec (point at_mid) digest); [|lia].
  destruct (Z.gtb_spec (midp + 1) (Z.of_nat (List.length ring))); [lia|].
  cbn [bind]. apply IH; lia.
Qed.

(** ** Reconfiguration *)

Lemma server_item_populate_success (server_list : list (list byte))
    (self_hostport : option (list byte)) (self_id0 : Z) (h : heap)
    (srv : list server_item) (self : Z) (server_list' : list (list byte)) (h' : heap) :
  server_item_populate server_list self_hostport self_id0 h
    = Ret (Some (srv, self), server_list', h') ->
  exists st,
    populate_loop self_hostport 0 server_list (mk_populate [] [] self_id0 (snd (alloc h)))
      = Ret (Continue st, server_list') /\
    srv = filled st /\ self = found_self st /\
    server_list' = map described_truncation server_list /\
    srv = map registry_entry server_list.
Proof.
  unfold server_item_populate. destruct (alloc h) as [[|] h0]; cbn [negb snd];
    [|discriminate].
  intros H. bind_inv H. destruct a as [[st|hf] sl]; [|discriminate].
  injection H as <- <- <- <-.
  exists st. pose proof (populate_loop_continue _ _ _ _ _ _ Hm) as (Hsl & _ & Hfi).
  cbn in Hsl, Hfi. auto.
Qed.

Lemma reconfigure_inv {env : Env} (config : cluster_config)
    (server_list : list (list byte)) (h : heap) (returned : bool)
    (config' : cluster_config) (server_list' : list (list byte)) (h' : heap) :
  cluster_config_reconfigure config server_list h
    = Ret (returned, config', server_list', h') ->
  (returned = false /\ config' = reconfig_failed config /\
   (registry_fails config server_list h \/ ring_builder_fails config server_list h)) \/
  (returned = true /\
   exists srv self h1 unsorted,
     server_item_populate server_list (self_hostport config) 0 h
       = Ret (Some (srv, self), server_list', h1) /\
     server_loop srv = Ret unsorted /\
     config' = mk_config self (self_hostport config)
                 (Z.of_nat (List.length server_list))
                 (Z.of_nat (List.length unsorted))
                 (Some srv) (Some (qsort continuum_item_cmp unsorted)) true).
Proof.
  unfold cluster_config_reconfigure. intros H. bind_inv H.
  destruct a as [[populated sl1] h1]. destruct populated as [[srv self]|].
  - bind_inv H. destruct a as [generated h2]. destruct generated as [[ring len]|].
    + injection H as <- <- <- <-. right. split; trivial.
      unfold ketama_continuum_generate in Hm0.
      destruct (alloc h1) as [[|] h3]; cbn [negb] in Hm0; [|discriminate].
      bind_inv Hm0. injection Hm0 as <- <- <-. eauto 10.
    + injection H as <- <- <- <-. left. repeat split. right.
      unfold ring_builder_fails. eauto 10.
  - injection H as <- <- <- <-. left. repeat split. left.
    unfold registry_fails. eauto.
Qed.

(** A reconfiguration that succeeds installs a state that the invariant
    accepts. *)
Lemma reconfigure_installs {env : Env} (config : cluster_config)
    (server_list : list (list byte)) (h : heap)
    (config' : cluster_config) (server_list' : list (list byte)) (h' : heap) :
  cluster_config_reconfigure config server_list h = Ret (true, config', server_list', h') ->
  exists srv ring, installed config' srv ring /\ is_valid config' = true /\
                   srv = map registry_entry server_list.
Proof.
  intros H. apply reconfigure_inv in H.
  destruct H as [[Hf _]|[_ (srv & self & h1 & unsorted & Hpop & Hloop & ->)]];
    [discriminate|].
  apply server_item_populate_success in Hpop.
  destruct Hpop as (st & _ & _ & _ & _ & Hsrv).
  apply server_loop_shape in Hloop. destruct Hloop as [Hlen Hidx].
  pose proof (qsort_permutation continuum_item_cmp unsorted) as Hperm.
  exists srv, (qsort continuum_item_cmp unsorted). repeat split; cbn; trivial.
  - now rewrite Hsrv, length_map.
  - now rewrite <- (Permutation_length Hperm).
  - now rewrite <- (Permutation_length Hperm).
  - apply qsort_ascending.
  - eapply Permutation_Forall; eassumption.
Qed.

(** ** Example data

    The environment of the examples takes 100 for [MAX_SERVER_ITEM_COUNT];
    the example addresses are a few bytes long, so that the array [host]
    holds every text for any value of the constant from 0 on. *)

Definition E : Env := example_env 100.

Definition example_servers : list (list byte) :=
  [cstr "host:1-zoneA"; cstr "host:2"].

(** The handle of node "host:1" after it has installed [example_servers]. *)
Definition example_config : cluster_config :=
  Eval vm_compute in
    match @cluster_config_reconfigure E (handle_for "host:1") example_servers [] with
    | Ret (_, config, _, _) => config
    | _ => fresh_handle
    end.

Definition example_ring : list continuum_item :=
  Eval vm_compute in
    match continuum example_config with
    | Some ring => ring
    | None => []
    end.

(** A key whose point, 4294502905, lies above the largest point of
    [example_ring], 4294039067. *)
Definition example_key : list byte := cstr "key11805".

Example fresh_handle_init : cluster_config_init [] = (Some fresh_handle, []).
Proof. reflexivity. Qed.

Example handle_for_set_hostport :
  cluster_config_set_hostport fresh_handle (cstr "host:1") 6 []
  = Ret (handle_for "host:1", []).
Proof. reflexivity. Qed.

Example example_config_reconfigured :
  @cluster_config_reconfigure E (handle_for "host:1") example_servers []
  = Ret (true, example_config, [store (cstr "host:1-zoneA") 6 NUL; cstr "host:2"], []) /\
  continuum example_config = Some example_ring /\
  self_id example_config = 0 /\
  num_servers example_config = 2 /\
  num_continuum example_config = 320.
Proof. split; [vm_compute; reflexivity | repeat split]. Qed.

Example example_key_point : @hash_ketama E example_key 8 = 4294502905.
Proof. vm_compute. reflexivity. Qed.

Example example_ring_ends :
  nth_error example_ring 0 = Some (mk_point 1 550312) /\
  nth_error example_ring 319 = Some (mk_point 1 4294039067).
Proof. split; reflexivity. Qed.

(** ** Ownership lookup *)

(** C1.  In a valid state whose ring holds at least one point, a key whose
    ketama digest lies strictly above the point of every ring entry is
    resolved to the server index stored in the ring entry at index 0: that
    index is what the call stores through [key_id], and the call returns
    whether it equals [self_id]. *)
Theorem wraparound_takes_first_entry {env : Env} (config : cluster_config)
    (ring : list continuum_item) (first : continuum_item)
    (key : list byte) (nkey : Z) (fuel : nat) :
  is_valid config = true ->
  continuum config = Some ring ->
  num_continuum config = Z.of_nat (List.length ring) ->
  nth_error ring 0 = Some first ->
  (forall p, In p ring -> point p < hash_ketama key nkey) ->
  (List.length ring < fuel)%nat ->
  cluster_config_key_is_mine fuel config key nkey
  = Ret (index first =? self_id config, Some (index first, self_id config)).
Proof.
  intros Hvalid Hring Hnum Hfirst Habove Hfuel.
  unfold cluster_config_key_is_mine. rewrite Hring, Hvalid, Hnum. cbn [negb].
  rewrite (search_loop_wraps ring first _ Hfirst Habove); [reflexivity | lia | lia].
Qed.

Lemma wraparound_takes_first_entry_witness :
  @cluster_config_key_is_mine E 321 example_config example_key 8
  = Ret (false, Some (1, 0)).
Proof.
  apply (@wraparound_takes_first_entry E example_config example_ring
           (mk_point 1 550312) example_key 8 321).
  - reflexivity.
  - reflexivity.
  - reflexivity.
  - reflexivity.
  - intros p Hp.
    assert (forallb (fun q => point q <? @hash_ketama E example_key 8) example_ring = true)
      as Hall by (vm_compute; reflexivity).
    rewrite forallb_forall in Hall. apply Z.ltb_lt. now apply Hall.
  - cbn. lia.
Defined.

(** ** The invariant of the installed state *)

(** C2.  The handle that [cluster_config_init] creates satisfies the
    invariant (whenever the validity flag is true, the ring has 160 entries
    per server, is sorted ascending by point, and every entry's server
    index is an index into the server list), and every operation that
    returns (setting the own address, a reconfiguration that succeeds or
    fails, a lookup) leaves a handle that satisfies it. *)
Theorem config_invariant_preserved {env : Env} :
  (forall h config h', cluster_config_init h = (Some config, h') ->
                       config_invariant config) /\
  (forall config op config',
      config_invariant config -> run config op = Ret config' ->
      config_invariant config').
Proof.
  split.
  - intros h config h'. unfold cluster_config_init.
    destruct (alloc h) as [[|] h0]; cbn [negb]; [|discriminate].
    intros [= <- _] Hvalid. discriminate.
  - intros config [hostport len h|server_list h|fuel key nkey] config' Hinv Hrun;
      cbn [run] in Hrun; bind_inv Hrun.
    + destruct a as [config1 h1]. injection Hrun as ->.
      unfold cluster_config_set_hostport in Hm.
      destruct (len <=? 0); [discriminate|].
      destruct (strndup hostport len h) as [copy h2]. injection Hm as <- _.
      intros Hvalid. destruct (Hinv Hvalid) as (srv & ring & [H1 H2 H3 H4 H5 H6 H7]).
      exists srv, ring. now constructor.
    + destruct a as [[[returned config1] sl1] h1]. injection Hrun as ->.
      destruct returned.
      * apply reconfigure_installs in Hm. destruct Hm as (srv & ring & Hinst & _).
        intros _. eauto.
      * apply reconfigure_inv in Hm.
        destruct Hm as [(_ & -> & _)|[Hf _]]; [|discriminate].
        intros Hvalid. discriminate.
    + now injection Hrun as <-.
Qed.

Lemma config_invariant_preserved_witness :
  config_invariant (handle_for "host:1") /\
  @run E (handle_for "host:1") (Reconfigure example_servers []) = Ret example_config /\
  config_invariant example_config.
Proof.
  assert (config_invariant (handle_for "host:1")) as Hfresh
    by (intros Hvalid; discriminate).
  assert (@run E (handle_for "host:1") (Reconfigure example_servers [])
          = Ret example_config) as Hrun.
  { vm_compute. reflexivity. }
  split; [exact Hfresh|]. split; [exact Hrun|].
  exact (proj2 (@config_invariant_preserved E) (handle_for "host:1")
           (Reconfigure example_servers []) example_config Hfresh Hrun).
Defined.

(** ** Failed reconfiguration *)

(** C6.  When the registry stage or the ring-builder stage of a
    reconfiguration fails, the call returns false, the validity flag is
    false afterwards, and the numbers of servers and of ring points, the
    installed server list, the installed ring and the stored self index
    (and the own address) are what they were before the call. *)
Theorem reconfigure_failure_keeps_state {env : Env} (config : cluster_config)
    (server_list : list (list byte)) (h : heap) :
  registry_fails config server_list h \/ ring_builder_fails config server_list h ->
  exists config' server_list' h',
    cluster_config_reconfigure config server_list h
    = Ret (false, config', server_list', h') /\
    is_valid config' = false /\
    num_servers config' = num_servers config /\
    num_continuum config' = num_continuum config /\
    servers config' = servers config /\
    continuum config' = continuum config /\
    self_id config' = self_id config /\
    self_hostport config' = self_hostport config.
Proof.
  unfold cluster_config_reconfigure.
  intros [(sl' & h' & Hpop)|(srv & self & sl' & h1 & h2 & Hpop & Hgen)];
    rewrite Hpop; cbn [bind]; [|rewrite Hgen; cbn [bind]];
    exists (reconfig_failed config), sl'; eexists; repeat split.
Qed.

Lemma reconfigure_failure_keeps_state_witness :
  exists config' server_list' h',
    @cluster_config_reconfigure E example_config example_servers [true; true; true; false]
    = Ret (false, config', server_list', h') /\
    is_valid config' = false /\
    num_servers config' = num_servers example_config /\
    num_continuum config' = num_continuum example_config /\
    servers config' = servers example_config /\
    continuum config' = continuum example_config /\
    self_id config' = self_id example_config /\
    self_hostport config' = self_hostport example_config.
Proof.
  apply (@reconfigure_failure_keeps_state E example_config example_servers
           [true; true; true; false]).
  right. unfold ring_builder_fails.
  exists [mk_server (Some (cstr "host:1")); mk_server (Some (cstr "host:2"))], 0,
         [store (cstr "host:1-zoneA") 6 NUL; cstr "host:2"], [false], [].
  split; reflexivity.
Defined.

(** The same through the accessors, for the test of the design document:
    after a failure the handle is invalid and reports the old counts. *)
Lemma reconfigure_failure_accessors {env : Env} (config : cluster_config)
    (server_list : list (list byte)) (h : heap)
    (config' : cluster_config) (server_list' : list (list byte)) (h' : heap) :
  cluster_config_reconfigure config server_list h
    = Ret (false, config', server_list', h') ->
  cluster_config_is_valid config' = false /\
  cluster_config_num_servers config' = cluster_config_num_servers config /\
  cluster_config_num_continuum config' = cluster_config_num_continuum config /\
  cluster_config_self_id config' = cluster_config_self_id config.
Proof.
  intros H. apply reconfigure_inv in H.
  destruct H as [(_ & -> & _)|[Hf _]]; [|discriminate]. repeat split.
Qed.

(** ** The lookup on a handle that is not valid *)

(** C7, the claim as stated fails: on the handle that [cluster_config_init]
    returns, before any reconfiguration, the ring pointer is NULL and
    [assert(config->continuum)] ends the call; no decision is returned. *)
Lemma resolve_before_reconfigure_aborts :
  cluster_config_init [] = (Some fresh_handle, []) /\
  is_valid fresh_handle = false /\
  @cluster_config_key_is_mine E 321 fresh_handle example_key 8 = Abort /\
  ~ exists decision,
      @cluster_config_key_is_mine E 321 fresh_handle example_key 8 = Ret decision.
Proof.
  repeat split. intros [decision H]. discriminate H.
Qed.

(** C7, amended.  On a handle whose ring has been installed (the ring
    pointer is not NULL, as after the first successful reconfiguration) and
    that, when it is valid, holds at least one ring point, the lookup
    returns a decision for every key; the decision does not depend on the
    iteration budget.  When the validity flag is false on such a handle the
    lookup returns true whatever the key, and stores nothing through
    [key_id] and [self_id]. *)
Theorem resolve_decides {env : Env} (config : cluster_config)
    (ring : list continuum_item) (key : list byte) (nkey : Z) :
  continuum config = Some ring ->
  (is_valid config = true ->
   num_continuum config = Z.of_nat (List.length ring) /\ ring <> []) ->
  (exists decision, forall fuel, (List.length ring < fuel)%nat ->
      cluster_config_key_is_mine fuel config key nkey = Ret decision) /\
  (is_valid config = false -> forall fuel,
      cluster_config_key_is_mine fuel config key nkey = Ret (true, None)).
Proof.
  intros Hring Hvalid. unfold cluster_config_key_is_mine. rewrite Hring.
  destruct (is_valid config) eqn:Hflag; cbn [negb].
  - destruct (Hvalid eq_refl) as [Hnum Hne]. rewrite Hnum. split; [|discriminate].
    destruct (search_loop_terminates ring (hash_ketama key nkey) Hne
                (S (List.length ring)) 0 (Z.of_nat (List.length ring)))
      as [server Hserver]; try lia.
    exists (server =? self_id config, Some (server, self_id config)).
    intros fuel Hfuel.
    rewrite (search_loop_more_fuel _ _ _ _ fuel _ _ _ Hserver); [reflexivity | lia].
  - split; [|reflexivity]. exists (true, None). reflexivity.
Qed.

(** The example handle after a reconfiguration that failed in the registry. *)
Definition example_invalid_config : cluster_config := reconfig_failed example_config.

Lemma resolve_decides_witness :
  (exists decision, forall fuel, (List.length example_ring < fuel)%nat ->
      @cluster_config_key_is_mine E fuel example_invalid_config example_key 8
      = Ret decision) /\
  (is_valid example_invalid_config = false -> forall fuel,
      @cluster_config_key_is_mine E fuel example_invalid_config example_key 8
      = Ret (true, None)).
Proof.
  apply (@resolve_decides E example_invalid_config example_ring example_key 8).
  - reflexivity.
  - intros Hvalid. discriminate Hvalid.
Defined.

Example example_invalid_config_reconfigured :
  @cluster_config_reconfigure E example_config example_servers [false]
  = Ret (false, example_invalid_config, example_servers, []).
Proof. reflexivity. Qed.

(** ** The self index that a reconfiguration installs *)

Lemma reconfigure_self_index {env : Env} (config : cluster_config)
    (server_list : list (list byte)) (h : heap)
    (config' : cluster_config) (server_list' : list (list byte)) (h' : heap) :
  cluster_config_reconfigure config server_list h = Ret (true, config', server_list', h') ->
  exists st sl,
    populate_loop (self_hostport config) 0 server_list
                  (mk_populate [] [] 0 (snd (alloc h))) = Ret (Continue st, sl) /\
    self_id config' = found_self st.
Proof.
  intros H. apply reconfigure_inv in H.
  destruct H as [[Hf _]|[_ (srv & self & h1 & unsorted & Hpop & _ & ->)]];
    [discriminate|].
  apply server_item_populate_success in Hpop.
  destruct Hpop as (st & Hloop & _ & -> & _). eauto.
Qed.

(** C4, the claim as stated fails: with the own address "host:1" and the
    server list ["host:1"; "host:1"] the reconfiguration succeeds and
    installs the self index 1, the index of the second entry, where the
    claim has 0. *)
Lemma duplicate_self_address_installs_last :
  match @cluster_config_reconfigure E (handle_for "host:1")
          [cstr "host:1"; cstr "host:1"] [] with
  | Ret (true, config', _, _) =>
      servers config' = Some [mk_server (Some (cstr "host:1"));
                              mk_server (Some (cstr "host:1"))] /\
      self_id config' = 1 /\ self_id config' <> 0
  | _ => False
  end.
Proof. vm_compute. repeat split. discriminate. Qed.

(** C4, amended.  When at least one token's address, as the registry stores
    it, equals the node's own address, a reconfiguration that succeeds
    installs as self index the index of the last such token: the scan
    overwrites the index at every match, so that of two entries with the
    own address the later one wins. *)
Theorem reconfigure_installs_last_self {env : Env} (config : cluster_config)
    (before : list (list byte)) (token : list byte) (after : list (list byte))
    (h : heap) (config' : cluster_config) (server_list' : list (list byte)) (h' : heap) :
  cluster_config_reconfigure config (before ++ token :: after) h
    = Ret (true, config', server_list', h') ->
  own_address (self_hostport config) (registry_entry token) ->
  (forall later, In later after ->
                 ~ own_address (self_hostport config) (registry_entry later)) ->
  self_id config' = Z.of_nat (List.length before).
Proof.
  intros H Hown Hlater. apply reconfigure_self_index in H.
  destruct H as (st & sl & Hloop & ->).
  now rewrite (populate_loop_last_self _ _ _ _ _ _ _ _ Hloop Hown Hlater).
Qed.

(** The handle that a reconfiguration leaves. *)
Definition reconfigured {env : Env} (config : cluster_config)
    (server_list : list (list byte)) (h : heap) : cluster_config :=
  match cluster_config_reconfigure config server_list h with
  | Ret (_, config', _, _) => config'
  | _ => config
  end.

Lemma reconfigure_installs_last_self_witness :
  self_id (@reconfigured E (handle_for "host:1")
             [cstr "host:1"; cstr "host:2"; cstr "host:1-zoneB"; cstr "host:3"] [])
  = 2.
Proof.
  apply (@reconfigure_installs_last_self E (handle_for "host:1")
           [cstr "host:1"; cstr "host:2"] (cstr "host:1-zoneB") [cstr "host:3"] []
           _ [cstr "host:1"; cstr "host:2"; store (cstr "host:1-zoneB") 6 NUL;
              cstr "host:3"] []).
  - vm_compute. reflexivity.
  - reflexivity.
  - intros later [<-|[]] Hown. discriminate Hown.
Defined.

(** C8, the claim as stated fails: node "host:2" first installs a list in
    which it is entry 1, then a list without its address; the second
    reconfiguration succeeds and installs the self index 0, not the 1 that
    was stored before the call. *)
Lemma self_index_not_kept_without_match :
  match @cluster_config_reconfigure E (handle_for "host:2")
          [cstr "host:1-zoneA"; cstr "host:2"] [] with
  | Ret (true, config1, _, _) =>
      self_id config1 = 1 /\
      match @cluster_config_reconfigure E config1 [cstr "host:1"; cstr "host:3"] [] with
      | Ret (true, config2, _, _) =>
          self_id config2 = 0 /\ self_id config2 <> self_id config1
      | _ => False
      end
  | _ => False
  end.
Proof. vm_compute. repeat split. discriminate. Qed.

(** C8, amended.  When no token's address, as the registry stores it,
    equals the node's own address, a reconfiguration that succeeds installs
    the self index 0, whatever index was stored before the call. *)
Theorem reconfigure_without_self_installs_zero {env : Env} (config : cluster_config)
    (server_list : list (list byte)) (h : heap)
    (config' : cluster_config) (server_list' : list (list byte)) (h' : heap) :
  cluster_config_reconfigure config server_list h = Ret (true, config', server_list', h') ->
  (forall token, In token server_list ->
                 ~ own_address (self_hostport config) (registry_entry token)) ->
  self_id config' = 0.
Proof.
  intros H Hnone. apply reconfigure_self_index in H.
  destruct H as (st & sl & Hloop & ->).
  now rewrite (populate_loop_no_self _ _ _ _ _ _ Hloop Hnone).
Qed.

(** Node "host:2", installed as entry 1 of the example list. *)
Definition example_config_2 : cluster_config :=
  Eval vm_compute in @reconfigured E (handle_for "host:2") example_servers [].

Lemma reconfigure_without_self_installs_zero_witness :
  self_id example_config_2 = 1 /\
  self_id (@reconfigured E example_config_2 [cstr "host:1"; cstr "host:3"] []) = 0.
Proof.
  split; [reflexivity|].
  apply (@reconfigure_without_self_installs_zero E example_config_2
           [cstr "host:1"; cstr "host:3"] [] _ [cstr "host:1"; cstr "host:3"] []).
  - vm_compute. reflexivity.
  - intros token [<-|[<-|[]]] Hown; discriminate Hown.
Defined.

(** ** The addresses that the registry keeps *)






(** ** The caller's buffers *)





(** A scan that stops at a failed [strdup] has rewritten the buffers up to
    the token it stopped at, and no other. *)
Lemma populate_loop_failed (self_hostport : option (list byte))
    (rest : list (list byte)) :
  forall (i : Z) (st : populate_state) (hf : heap) (server_list' : list (list byte)),
  populate_loop self_hostport i rest st = Ret (Failed hf, server_list') ->
  exists n : nat, (n <= List.length rest)%nat /\
    server_list' = scanned st ++ map described_truncation (firstn n rest) ++ skipn n rest.
Proof.
  induction rest as [|token rest IH]; intros i st hf sl' H; cbn in H; [discriminate|].
  bind_inv H. destruct a as [next token'].
  pose proof (populate_token_buffer _ _ _ _ _ _ Hm) as ->.
  destruct next as [st1|h1].
  - apply populate_token_continue in Hm. destruct Hm as (_ & Hsc & _).
    apply IH in H. destruct H as (n & Hn & ->).
    exists (S n). split; [cbn; lia|]. rewrite Hsc, <- app_assoc. reflexivity.
  - injection H as _ <-. exists 1%nat. split; [cbn; lia|]. reflexivity.
Qed.

Lemma server_item_populate_buffers (server_list : list (list byte))
    (self_hostport : option (list byte)) (self_id0 : Z) (h : heap)
    (populated : option (list server_item * Z))
    (server_list' : list (list byte)) (h' : heap) :
  server_item_populate server_list self_hostport self_id0 h
    = Ret (populated, server_list', h') ->
  exists n : nat, (n <= List.length server_list)%nat /\
    server_list' = map described_truncation (firstn n server_list) ++ skipn n server_list /\
    (populated <> None -> n = List.length server_list).
Proof.
  unfold server_item_populate. destruct (alloc h) as [[|] h0]; cbn [negb].
  - intros H. bind_inv H. destruct a as [[st|hf] sl].
    + injection H as <- <- <-.
      apply populate_loop_continue in Hm. destruct Hm as (-> & _ & _).
      exists (List.length server_list). rewrite firstn_all, skipn_all, app_nil_r.
      auto.
    + injection H as <- <- <-. apply populate_loop_failed in Hm.
      destruct Hm as (n & Hn & ->). exists n. repeat split; trivial. congruence.
  - intros [= <- <- <-]. exists 0%nat. repeat split; [lia | congruence].
Qed.




(** The same lists with every allocation served: the scan reaches all the
    tokens, and the third buffer loses its separator too. *)
Example reconfigure_truncates_all_tokens :
  match @cluster_config_reconfigure E (handle_for "host:1")
          [cstr "host:1-zoneA-x"; cstr "host:2"; cstr "--b-c"] [] with
  | Ret (true, _, server_list', _) =>
      server_list'
      = [store (cstr "host:1-zoneA-x") 6 NUL; cstr "host:2"; store (cstr "--b-c") 3 NUL]
  | _ => False
  end.
Proof. vm_compute. reflexivity. Qed.

(** Whatever the allocator does, the buffers that the scan has reached are
    truncated and the others are untouched. *)
Lemma reconfigure_truncates_scanned_tokens {env : Env} (config : cluster_config)
    (server_list : list (list byte)) (h : heap) (returned : bool)
    (config' : cluster_config) (server_list' : list (list byte)) (h' : heap) :
  cluster_config_reconfigure config server_list h
    = Ret (returned, config', server_list', h') ->
  exists n : nat, (n <= List.length server_list)%nat /\
    server_list' = map described_truncation (firstn n server_list) ++ skipn n server_list.
Proof.
  unfold cluster_config_reconfigure. intros H. bind_inv H.
  destruct a as [[populated sl1] h1].
  apply server_item_populate_buffers in Hm. destruct Hm as (n & Hn & -> & _).
  exists n. split; trivial.
  destruct populated as [[srv self]|].
  - bind_inv H. destruct a as [[[ring len]|] h2]; now injection H.
  - now injection H.
Qed.

(** ** The points that the ring builder emits *)

(** C3, the claim as stated fails: with 100 for MAX_SERVER_ITEM_COUNT, a
    server whose address has 107 bytes makes the loops return 160 points,
    but the texts "<address>-<h>" with two digits do not fit the array
    [host]: the entry at position 40 (round h = 10, slice 0) is the slice
    of the digest of the cut text "<address>-1" with its NUL, not of the
    digest of "<address>-10", and the array is not the described one. *)
Lemma boundary_address_hashes_cut_text :
  match @server_loop E [mk_server (Some (repeat x61 107))] with
  | Ret points =>
      List.length points = 160%nat /\
      option_map point (nth_error points 40)
      = Some (pointFromDigest (@MD5 E (repeat x61 107 ++ cstr "-1" ++ [NUL])) 0) /\
      option_map point (nth_error points 40)
      <> Some (pointFromDigest (@MD5 E (repeat x61 107 ++ cstr "-10")) 0) /\
      points <> @described_points E [repeat x61 107]
  | _ => False
  end.
Proof.
  vm_compute. repeat split; try discriminate.
Qed.

(** C3, amended.  For every server list whose entries each have an address
    of at most MAX_SERVER_ITEM_COUNT + 6 bytes, so that every text
    "<address>-<h>" fits the array [host], the loops of the ring builder
    emit, for each server at index [s] and each [h] in 0..39, the 4 points
    that the 16-byte digest of "<address>-<h>" gives by its little-endian
    slices at offsets 0, 4, 8 and 12, each with server index [s]; that
    makes 160 points for each server before the sort.  The builder returns
    [qsort] of this array with its length when [calloc] serves the array,
    and false when it does not. *)
Theorem generate_emits_described_points {env : Env} (srv : list server_item) (h : heap) :
  Forall address_fits srv ->
  server_loop srv = Ret (described_points (map server_address srv)) /\
  ketama_continuum_generate srv h
  = (if fst (alloc h)
     then Ret (Some (qsort continuum_item_cmp
                       (described_points (map server_address srv)),
                     Z.of_nat (List.length srv * 160)),
               snd (alloc h))
     else Ret (None, snd (alloc h))) /\
  (forall s, 0 <= s < Z.of_nat (List.length srv) ->
     List.length (points_of s (described_points (map server_address srv))) = 160%nat) /\
  (forall text, List.length (hash_md5 text (Z.of_nat (List.length text))) = 16%nat).
Proof.
  intros Hfits.
  pose proof (server_loop_described srv Hfits) as Hloop.
  repeat split.
  - exact Hloop.
  - unfold ketama_continuum_generate. destruct (alloc h) as [[|] h0]; cbn [negb fst snd].
    + rewrite Hloop. cbn [bind].
      apply server_loop_shape in Hloop. destruct Hloop as [-> _]. reflexivity.
    + reflexivity.
  - intros s Hs. unfold described_points.
    pose proof (points_of_described_from s (map server_address srv) 0) as Hcount.
    unfold range. rewrite Nat2Z.id, Hcount, length_map. cbn [Nat.add Z.of_nat].
    destruct (Z.leb_spec 0 s); [|lia].
    destruct (Z.ltb_spec s (Z.of_nat (List.length srv))); [reflexivity | lia].
  - intros text. rewrite hash_md5_whole. apply MD5_length.
Qed.

Definition example_server_items : list server_item :=
  [mk_server (Some (cstr "host:1")); mk_server (Some (cstr "host:2"))].

Lemma generate_emits_described_points_witness :
  @server_loop E example_server_items
  = Ret (@described_points E (map server_address example_server_items)) /\
  @ketama_continuum_generate E example_server_items []
  = (if fst (alloc [])
     then Ret (Some (@qsort E continuum_item_cmp
                       (@described_points E (map server_address example_server_items)),
                     Z.of_nat (List.length example_server_items * 160)),
               snd (alloc []))
     else Ret (None, snd (alloc []))) /\
  (forall s, 0 <= s < Z.of_nat (List.length example_server_items) ->
     List.length (points_of s
       (@described_points E (map server_address example_server_items))) = 160%nat) /\
  (forall text, List.length (@hash_md5 E text (Z.of_nat (List.length text))) = 16%nat).
Proof.
  apply (@generate_emits_described_points E example_server_items []).
  repeat constructor; cbn; try discriminate; lia.
Defined.

(** The ring of the example is the sorted array of the described points. *)
Example example_ring_described :
  example_ring
  = @qsort E continuum_item_cmp
      (@described_points E (map server_address example_server_items)).
Proof. vm_compute. reflexivity. Qed.

(** ** Termination of the lookup *)

(** C10.  In a valid state whose ring holds at least one point, every
    round of the binary search that starts from limits inside the array
    either leaves the loop with a server or hands on limits that lie
    inside the old ones and are strictly closer together; the loop
    therefore ends, and with any budget above the number of ring points the
    lookup returns one and the same decision: it is a total function of
    the handle and the key. *)
Theorem resolve_terminates {env : Env} (config : cluster_config)
    (ring : list continuum_item) (key : list byte) (nkey : Z) :
  is_valid config = true ->
  continuum config = Some ring ->
  num_continuum config = Z.of_nat (List.length ring) ->
  ring <> [] ->
  (forall lowp highp,
      0 <= lowp -> lowp <= highp -> highp <= num_continuum config ->
      (exists server,
          search_step ring (num_continuum config) (hash_ketama key nkey) lowp highp
          = Ret (Break server)) \/
      (exists lowp' highp',
          search_step ring (num_continuum config) (hash_ketama key nkey) lowp highp
          = Ret (Again lowp' highp') /\
          lowp <= lowp' /\ lowp' <= highp' /\ highp' <= highp /\
          highp' - lowp' < highp - lowp)) /\
  (exists server,
      forall fuel, (List.length ring < fuel)%nat ->
        cluster_config_key_is_mine fuel config key nkey
        = Ret (server =? self_id config, Some (server, self_id config))).
Proof.
  intros Hvalid Hring Hnum Hne. rewrite Hnum. split.
  - intros lowp highp. now apply search_step_progress.
  - destruct (search_loop_terminates ring (hash_ketama key nkey) Hne
                (S (List.length ring)) 0 (Z.of_nat (List.length ring)))
      as [server Hserver]; try lia.
    exists server. intros fuel Hfuel.
    unfold cluster_config_key_is_mine. rewrite Hring, Hvalid, Hnum. cbn [negb].
    rewrite (search_loop_more_fuel _ _ _ _ fuel _ _ _ Hserver); [reflexivity | lia].
Qed.

Lemma resolve_terminates_witness :
  (forall lowp highp,
      0 <= lowp -> lowp <= highp -> highp <= num_continuum example_config ->
      (exists server,
          search_step example_ring (num_continuum example_config)
            (@hash_ketama E (cstr "hello") 5) lowp highp
          = Ret (Break server)) \/
      (exists lowp' highp',
          search_step example_ring (num_continuum example_config)
            (@hash_ketama E (cstr "hello") 5) lowp highp
          = Ret (Again lowp' highp') /\
          lowp <= lowp' /\ lowp' <= highp' /\ highp' <= highp /\
          highp' - lowp' < highp - lowp)) /\
  (exists server,
      forall fuel, (List.length example_ring < fuel)%nat ->
        @cluster_config_key_is_mine E fuel example_config (cstr "hello") 5
        = Ret (server =? self_id example_config, Some (server, self_id example_config))).
Proof.
  apply (@resolve_terminates E example_config example_ring (cstr "hello") 5).
  - reflexivity.
  - reflexivity.
  - reflexivity.
  - discriminate.
Defined.

(** The lookup of the example key "hello", whose point is 708854109. *)
Example example_lookup :
  @cluster_config_key_is_mine E 321 example_config (cstr "hello") 5
  = Ret (false, Some (1, 0)).
Proof. vm_compute. reflexivity. Qed.

(** * Further properties *)

(** ** What the binary search finds *)

Lemma first_at_or_above_rank (digest : Z) (ring : list continuum_item) :
  first_at_or_above digest ring = nth_error ring (rank digest ring).
Proof.
  induction ring as [|item ring IH]; [reflexivity|].
  cbn. now destruct (digest <=? point item).
Qed.

Lemma rank_le_length (digest : Z) (ring : list continuum_item) :
  (rank digest ring <= List.length ring)%nat.
Proof.
  induction ring as [|item ring IH]; cbn; [lia|].
  destruct (digest <=? point item); lia.
Qed.

Lemma rank_below (digest : Z) (ring : list continuum_item) :
  forall (k : nat) (item : continuum_item),
  nth_error ring k = Some item -> (k < rank digest ring)%nat -> point item < digest.
Proof.
  induction ring as [|first ring IH]; intros k item Hnth Hk; [cbn in Hk; lia|].
  cbn in Hk. destruct (Z.leb_spec digest (point first)); [lia|].
  destruct k as [|k]; cbn in Hnth.
  - injection Hnth as <-. lia.
  - apply (IH k); [trivial | lia].
Qed.

Lemma rank_above (digest : Z) (ring : list continuum_item) :
  ascending ring ->
  forall (k : nat) (item : continuum_item),
  nth_error ring k = Some item -> (rank digest ring <= k)%nat -> digest <= point item.
Proof.
  unfold ascending. induction 1 as [|first ring Hsorted IH Hfirst];
    intros k item Hnth Hk; [now destruct k|].
  cbn in Hk. destruct (Z.leb_spec digest (point first)) as [Hle|Hlt].
  - destruct k as [|k]; cbn in Hnth.
    + injection Hnth as <-. exact Hle.
    + apply nth_error_In in Hnth. rewrite Forall_forall in Hfirst.
      specialize (Hfirst item Hnth). lia.
  - destruct k as [|k]; [lia|]. cbn in Hnth. apply (IH k); [trivial | lia].
Qed.

(** On an ascending ring the loop keeps the rank of the digest between its
    limits, and leaves with the index of the digest's successor. *)
Lemma search_loop_finds_successor (ring : list continuum_item)
    (first : continuum_item) (digest : Z) :
  ascending ring -> nth_error ring 0 = Some first -> 0 <= digest ->
  forall (fuel : nat) (lowp highp : Z),
  0 <= lowp -> lowp <= Z.of_nat (rank digest ring) ->
  Z.of_nat (rank digest ring) <= highp -> highp <= Z.of_nat (List.length ring) ->
  highp - lowp < Z.of_nat fuel ->
  exists owner,
    successor digest ring = Some owner /\
    search_loop fuel ring (Z.of_nat (List.length ring)) digest lowp highp
    = Ret (index owner).
Proof.
  intros Hasc Hfirst Hdigest.
  pose proof (rank_le_length digest ring) as Hrank.
  induction fuel as [|fuel IH]; intros lowp highp Hlow Hlr Hrh Hhigh Hfuel; [lia|].
  cbn [search_loop]. unfold search_step.
  destruct (midpoint_bounds lowp highp) as [Hmid Hstrict]; [lia|].
  set (midp := lowp + Z.quot (highp - lowp) 2) in *.
  destruct (Z.eqb_spec midp (Z.of_nat (List.length ring))) as [Hend|Hend].
  { rewrite (deref_first ring first Hfirst). cbn [bind].
    exists first. split; [|reflexivity].
    unfold successor. rewrite first_at_or_above_rank.
    assert (rank digest ring = List.length ring) as -> by lia.
    now rewrite (proj2 (nth_error_None ring (List.length ring))) by lia. }
  destruct (deref_in_bounds ring midp) as (at_mid & -> & Hnth); [lia|]. cbn [bind].
  assert (exists prev,
    (if midp =? 0 then Ret 0
     else before <- deref ring (midp - 1) ;; Ret (point before)) = Ret prev /\
    (digest <= prev -> Z.of_nat (rank digest ring) < midp \/ (midp = 0 /\ digest = 0)) /\
    (prev < digest -> midp <= Z.of_nat (rank digest ring)))
    as (prev & -> & Hprev_ge & Hprev_lt).
  { destruct (Z.eqb_spec midp 0) as [Hzero|Hzero].
    - exists 0. repeat split; lia.
    - destruct (deref_in_bounds ring (midp - 1)) as (before & -> & Hbefore); [lia|].
      cbn [bind]. exists (point before). repeat split.
      + intros Hge. left.
        destruct (Z.ltb_spec (Z.of_nat (rank digest ring)) midp); trivial.
        pose proof (rank_below digest ring _ _ Hbefore). lia.
      + intros Hlt.
        destruct (Z.leb_spec midp (Z.of_nat (rank digest ring))); trivial.
        pose proof (rank_above digest ring Hasc _ _ Hbefore). lia. }
  cbn [bind].
  assert (digest <= point at_mid -> Z.of_nat (rank digest ring) <= midp) as Hmid_ge.
  { intros Hle. destruct (Z.leb_spec (Z.of_nat (rank digest ring)) midp); trivial.
    pose proof (rank_below digest ring _ _ Hnth). lia. }
  assert (point at_mid < digest -> midp < Z.of_nat (rank digest ring)) as Hmid_lt.
  { intros Hlt. destruct (Z.ltb_spec midp (Z.of_nat (rank digest ring))); trivial.
    pose proof (rank_above digest ring Hasc _ _ Hnth). lia. }
  destruct (Z.leb_spec digest (point at_mid)) as [Hle|Hgt];
    destruct (Z.gtb_spec digest prev) as [Hp|Hp]; cbn [andb].
  - exists at_mid. split; [|reflexivity].
    unfold successor. rewrite first_at_or_above_rank.
    assert (rank digest ring = Z.to_nat midp) as -> by lia. now rewrite Hnth.
  - destruct (Z.ltb_spec (point at_mid) digest); [lia|].
    destruct (Z.gtb_spec lowp (midp - 1)) as [Hcross|Hcross].
    + rewrite (deref_first ring first Hfirst). cbn [bind].
      exists first. split; [|reflexivity].
      unfold successor. rewrite first_at_or_above_rank.
      assert (rank digest ring = O) as -> by lia. now rewrite Hfirst.
    + cbn [bind]. apply IH; lia.
  - destruct (Z.ltb_spec (point at_mid) digest); [|lia].
    destruct (Z.gtb_spec (midp + 1) highp); [lia|].
    cbn [bind]. apply IH; lia.
  - destruct (Z.ltb_spec (point at_mid) digest); [|lia].
    destruct (Z.gtb_spec (midp + 1) highp); [lia|].
    cbn [bind]. apply IH; lia.
Qed.

(** X1.  In a valid state whose ring is installed, ascending and not
    empty, the lookup resolves every key to the successor of its digest:
    the first ring entry whose point is at or above the digest, or the
    first entry of the ring when every point lies below it.  The index of
    that entry is stored through [key_id], and the call returns whether it
    equals [self_id]. *)
Theorem lookup_finds_successor {env : Env} (config : cluster_config)
    (ring : list continuum_item) (key : list byte) (nkey : Z) :
  is_valid config = true ->
  continuum config = Some ring ->
  num_continuum config = Z.of_nat (List.length ring) ->
  ascending ring ->
  ring <> [] ->
  exists owner,
    successor (hash_ketama key nkey) ring = Some owner /\
    forall fuel, (List.length ring < fuel)%nat ->
      cluster_config_key_is_mine fuel config key nkey
      = Ret (index owner =? self_id config, Some (index owner, self_id config)).
Proof.
  intros Hvalid Hring Hnum Hasc Hne.
  destruct ring as [|first ring']; [contradiction|]. set (ring := first :: ring') in *.
  pose proof (hash_ketama_range key nkey) as Hrange.
  pose proof (rank_le_length (hash_ketama key nkey) ring) as Hrank.
  destruct (search_loop_finds_successor ring first (hash_ketama key nkey) Hasc eq_refl
              (proj1 Hrange) (S (List.length ring)) 0 (Z.of_nat (List.length ring)))
    as (owner & Hsucc & Hsearch); try lia.
  exists owner. split; [exact Hsucc|]. intros fuel Hfuel.
  unfold cluster_config_key_is_mine. rewrite Hring, Hvalid, Hnum. cbn [negb].
  rewrite (search_loop_more_fuel _ _ _ _ fuel _ _ _ Hsearch); [reflexivity | lia].
Qed.

Lemma ascendingb_sound (ring : list continuum_item) :
  ascendingb ring = true -> ascending ring.
Proof.
  intros H. apply Sorted_StronglySorted; [intros a b c; lia|].
  induction ring as [|a ring IH]; [constructor|].
  destruct ring as [|b ring]; [repeat constructor|].
  cbn [ascendingb] in H. apply andb_prop in H. destruct H as [Hab Hrest].
  constructor; [now apply IH|]. constructor. now apply Z.leb_le.
Qed.

Lemma lookup_finds_successor_witness :
  exists owner,
    successor (@hash_ketama E (cstr "hello") 5) example_ring = Some owner /\
    forall fuel, (List.length example_ring < fuel)%nat ->
      @cluster_config_key_is_mine E fuel example_config (cstr "hello") 5
      = Ret (index owner =? self_id example_config,
             Some (index owner, self_id example_config)).
Proof.
  apply (@lookup_finds_successor E example_config example_ring (cstr "hello") 5).
  - reflexivity.
  - reflexivity.
  - reflexivity.
  - apply ascendingb_sound. vm_compute. reflexivity.
  - discriminate.
Defined.

(** The successor of the example key "hello" (point 708854109). *)
Example example_successor :
  successor (@hash_ketama E (cstr "hello") 5) example_ring
  = Some (mk_point 1 709074897).
Proof. vm_compute. reflexivity. Qed.

(** ** The number of rounds of the binary search *)

(** A round that goes on at least halves the distance of the limits. *)
Lemma search_step_halves (ring : list continuum_item) (endp digest : Z)
    (lowp highp lowp' highp' : Z) :
  lowp <= highp ->
  search_step ring endp digest lowp highp = Ret (Again lowp' highp') ->
  lowp <= lowp' /\ lowp' <= highp' /\ highp' <= highp /\
  2 * (highp' - lowp') <= highp - lowp.
Proof.
  intros Hle. unfold search_step.
  assert (lowp <= lowp + Z.quot (highp - lowp) 2 <= highp /\
          2 * Z.quot (highp - lowp) 2 <= highp - lowp <= 2 * Z.quot (highp - lowp) 2 + 1)
    as [Hmid Hhalf] by (Z.to_euclidean_division_equations; lia).
  set (midp := lowp + Z.quot (highp - lowp) 2) in *.
  destruct (midp =? endp).
  { destruct (deref ring 0); discriminate. }
  destruct (deref ring midp) as [at_mid| | |]; cbn [bind]; try discriminate.
  destruct (if midp =? 0 then Ret 0
            else before <- deref ring (midp - 1) ;; Ret (point before))
    as [prev| | |]; cbn [bind]; try discriminate.
  destruct ((digest <=? point at_mid) && (digest >? prev)); [discriminate|].
  destruct (point at_mid <? digest).
  - destruct (Z.gtb_spec (midp + 1) highp).
    + destruct (deref ring 0); discriminate.
    + intros [= <- <-]. subst midp. lia.
  - destruct (Z.gtb_spec lowp (midp - 1)).
    + destruct (deref ring 0); discriminate.
    + intros [= <- <-]. subst midp. lia.
Qed.

Lemma search_loop_logarithmic (ring : list continuum_item) (digest : Z) :
  ring <> [] ->
  forall (fuel : nat) (lowp highp : Z),
  0 <= lowp -> lowp <= highp -> highp <= Z.of_nat (List.length ring) ->
  highp - lowp < 2 ^ Z.of_nat fuel ->
  exists server,
    search_loop (S fuel) ring (Z.of_nat (List.length ring)) digest lowp highp
    = Ret server.
Proof.
  intros Hne. induction fuel as [|fuel IH]; intros lowp highp Hlow Hle Hhigh Hfuel.
  - cbn [search_loop]. change (2 ^ Z.of_nat 0) with 1 in Hfuel.
    destruct (search_step_progress ring digest lowp highp Hne Hlow Hle Hhigh)
      as [[server ->]|(lowp' & highp' & _ & H1 & H2 & H3 & H4)]; [cbn; eauto | lia].
  - cbn [search_loop].
    destruct (search_step_progress ring digest lowp highp Hne Hlow Hle Hhigh)
      as [[server ->]|(lowp' & highp' & Hstep & H1 & H2 & H3 & H4)]; [cbn; eauto|].
    rewrite Hstep. cbn [bind].
    apply search_step_halves in Hstep; [|exact Hle].
    apply IH; try lia.
    rewrite Nat2Z.inj_succ, Z.pow_succ_r in Hfuel by lia. lia.
Qed.

(** X2.  The lookup needs no more rounds than the binary logarithm of the
    ring size allows: in a valid state with an installed ring of n >= 1
    points, a budget of r + 1 rounds with n < 2^r lets the call return. *)
Theorem lookup_rounds_logarithmic {env : Env} (config : cluster_config)
    (ring : list continuum_item) (key : list byte) (nkey : Z) (rounds : nat) :
  is_valid config = true ->
  continuum config = Some ring ->
  num_continuum config = Z.of_nat (List.length ring) ->
  ring <> [] ->
  Z.of_nat (List.length ring) < 2 ^ Z.of_nat rounds ->
  exists server,
    cluster_config_key_is_mine (S rounds) config key nkey
    = Ret (server =? self_id config, Some (server, self_id config)).
Proof.
  intros Hvalid Hring Hnum Hne Hrounds.
  destruct (search_loop_logarithmic ring (hash_ketama key nkey) Hne rounds 0
              (Z.of_nat (List.length ring))) as [server Hserver]; try lia.
  exists server. unfold cluster_config_key_is_mine.
  rewrite Hring, Hvalid, Hnum. cbn [negb]. now rewrite Hserver.
Qed.

Lemma lookup_rounds_logarithmic_witness :
  exists server,
    @cluster_config_key_is_mine E 10 example_config example_key 8
    = Ret (server =? self_id example_config, Some (server, self_id example_config)).
Proof.
  apply (@lookup_rounds_logarithmic E example_config example_ring example_key 8 9).
  - reflexivity.
  - reflexivity.
  - reflexivity.
  - discriminate.
  - cbn. lia.
Defined.

(** ** Adding a server *)

Lemma first_at_or_above_some (digest : Z) (ring : list continuum_item)
    (owner : continuum_item) :
  ascending ring ->
  first_at_or_above digest ring = Some owner ->
  In owner ring /\ digest <= point owner /\
  forall e, In e ring -> digest <= point e -> point owner <= point e.
Proof.
  unfold ascending. induction 1 as [|first ring Hsorted IH Hfirst]; [discriminate|].
  cbn [first_at_or_above]. destruct (Z.leb_spec digest (point first)) as [Hle|Hlt].
  - intros [= <-]. repeat split; [now left | trivial |].
    intros e [<-|He] _; [lia|]. rewrite Forall_forall in Hfirst. now apply Hfirst.
  - intros Hsome. destruct (IH Hsome) as (Hin & Hd & Hmin).
    repeat split; [now right | trivial |].
    intros e [<-|He] Hde; [lia | now apply Hmin].
Qed.

Lemma first_at_or_above_none (digest : Z) (ring : list continuum_item) :
  first_at_or_above digest ring = None ->
  forall e, In e ring -> point e < digest.
Proof.
  induction ring as [|first ring IH]; [intros _ e []|].
  cbn [first_at_or_above]. destruct (Z.leb_spec digest (point first)); [discriminate|].
  intros Hnone e [<-|He]; [trivial | now apply IH].
Qed.

Lemma ascending_head_least (ring : list continuum_item) (first : continuum_item) :
  ascending ring -> nth_error ring 0 = Some first ->
  In first ring /\ forall e, In e ring -> point first <= point e.
Proof.
  intros Hasc Hnth. destruct ring as [|item ring]; [discriminate|].
  injection Hnth as ->. split; [now left|].
  inversion Hasc as [|? ? _ Hfirst]; subst.
  intros e [<-|He]; [lia|]. rewrite Forall_forall in Hfirst. now apply Hfirst.
Qed.

(** The successor of a digest is an entry of least point among the entries
    at or above the digest, or among all entries when there is none. *)
Lemma successor_least (digest : Z) (ring : list continuum_item)
    (owner : continuum_item) :
  ascending ring ->
  successor digest ring = Some owner ->
  In owner ring /\
  ((digest <= point owner /\
    forall e, In e ring -> digest <= point e -> point owner <= point e) \/
   ((forall e, In e ring -> point e < digest) /\
    forall e, In e ring -> point owner <= point e)).
Proof.
  intros Hasc. unfold successor.
  destruct (first_at_or_above digest ring) as [item|] eqn:Hfirst.
  - intros [= <-]. apply first_at_or_above_some in Hfirst; trivial.
    destruct Hfirst as (Hin & Hd & Hmin). auto.
  - intros Hhead. apply ascending_head_least in Hhead; trivial.
    destruct Hhead as [Hin Hmin]. split; trivial. right. split; trivial.
    now apply first_at_or_above_none.
Qed.

(** When entries are added to a ring, a digest falls to one of the added
    entries or stays with the server it fell to. *)
Lemma successor_after_insertion (digest : Z)
    (ring1 ring2 added : list continuum_item) (owner1 owner2 : continuum_item) :
  ascending ring1 -> ascending ring2 ->
  (forall e, In e ring1 -> In e ring2) ->
  (forall e, In e ring2 -> In e ring1 \/ In e added) ->
  ties_agree ring1 ->
  successor digest ring1 = Some owner1 ->
  successor digest ring2 = Some owner2 ->
  In owner2 added \/ index owner2 = index owner1.
Proof.
  intros Hasc1 Hasc2 Hsub Hsplit Hties H1 H2.
  apply successor_least in H1; trivial. apply successor_least in H2; trivial.
  destruct H1 as [Hin1 H1], H2 as [Hin2 H2].
  destruct (Hsplit owner2 Hin2) as [Hold|Hnew]; [|now left].
  right. apply Hties; trivial.
  pose proof (Hsub owner1 Hin1) as Hin12.
  destruct H1 as [[Hd1 Hmin1]|[Hall1 Hmin1]], H2 as [[Hd2 Hmin2]|[Hall2 Hmin2]].
  - specialize (Hmin1 owner2 Hold Hd2). specialize (Hmin2 owner1 Hin12 Hd1). lia.
  - specialize (Hall2 owner1 Hin12). lia.
  - specialize (Hall1 owner2 Hold). lia.
  - specialize (Hmin1 owner2 Hold). specialize (Hmin2 owner1 Hin12). lia.
Qed.

Lemma for_each_app {A B : Type} (body : A -> outcome (list B)) (l1 l2 : list A) :
  for_each body (l1 ++ l2)
  = (o1 <- for_each body l1 ;; o2 <- for_each body l2 ;; Ret (o1 ++ o2)).
Proof.
  induction l1 as [|a l1 IH]; cbn [app for_each].
  - cbn [bind]. destruct (for_each body l2); reflexivity.
  - destruct (body a) as [out| | |]; cbn [bind]; trivial.
    rewrite IH. destruct (for_each body l1) as [o1| | |]; cbn [bind]; trivial.
    destruct (for_each body l2) as [o2| | |]; cbn [bind]; trivial.
    now rewrite app_assoc.
Qed.

Lemma range_succ (n : nat) : range (Z.of_nat (S n)) = range (Z.of_nat n) ++ [Z.of_nat n].
Proof.
  unfold range. rewrite !Nat2Z.id, seq_S, map_app. reflexivity.
Qed.

Lemma combine_snoc {A B : Type} (l1 : list A) (l2 : list B) (a : A) (b : B) :
  List.length l1 = List.length l2 ->
  combine (l1 ++ [a]) (l2 ++ [b]) = combine l1 l2 ++ [(a, b)].
Proof.
  revert l2. induction l1 as [|x l1 IH]; intros [|y l2] Hlen; try discriminate.
  - reflexivity.
  - cbn. f_equal. apply IH. now injection Hlen.
Qed.

Section Adding.

Context {env : Env}.

(** The array for a list with one more server is the array for the list
    followed by the new server's points. *)
Lemma server_loop_snoc (srv : list server_item) (server : server_item)
    (unsorted2 : list continuum_item) :
  server_loop (srv ++ [server]) = Ret unsorted2 ->
  exists unsorted1 added,
    server_loop srv = Ret unsorted1 /\
    hash_loop (Z.of_nat (List.length srv)) server = Ret added /\
    unsorted2 = unsorted1 ++ added.
Proof.
  unfold server_loop. rewrite length_app. cbn [List.length].
  replace (List.length srv + 1)%nat with (S (List.length srv)) by lia.
  rewrite range_succ, combine_snoc by (now rewrite range_length).
  rewrite for_each_app. intros H. bind_inv H. bind_inv H. injection H as <-.
  cbn [for_each] in Hm0. bind_inv Hm0. bind_inv Hm0. injection Hm0 as <-.
  injection Hm2 as <-. rewrite app_nil_r. eauto.
Qed.

Lemma search_loop_agree (ring : list continuum_item) (endp digest lowp highp : Z)
    (fuel1 fuel2 : nat) (server1 server2 : Z) :
  search_loop fuel1 ring endp digest lowp highp = Ret server1 ->
  search_loop fuel2 ring endp digest lowp highp = Ret server2 ->
  server1 = server2.
Proof.
  intros H1 H2.
  apply search_loop_more_fuel with (fuel' := Nat.max fuel1 fuel2) in H1; [|lia].
  apply search_loop_more_fuel with (fuel' := Nat.max fuel1 fuel2) in H2; [|lia].
  congruence.
Qed.

(** A lookup that returns from a valid state with an ascending ring has
    taken the successor of the key's digest. *)
Lemma lookup_returns_successor (config : cluster_config) (ring : list continuum_item)
    (key : list byte) (nkey : Z) (fuel : nat) (mine : bool) (stored : option (Z * Z)) :
  is_valid config = true ->
  continuum config = Some ring ->
  num_continuum config = Z.of_nat (List.length ring) ->
  ascending ring ->
  cluster_config_key_is_mine fuel config key nkey = Ret (mine, stored) ->
  exists owner,
    successor (hash_ketama key nkey) ring = Some owner /\
    stored = Some (index owner, self_id config) /\
    mine = (index owner =? self_id config).
Proof.
  intros Hvalid Hring Hnum Hasc. unfold cluster_config_key_is_mine.
  rewrite Hring, Hvalid, Hnum. cbn [negb]. intros H. bind_inv H.
  injection H as <- <-. rename a into server.
  destruct ring as [|first ring'].
  { destruct fuel as [|fuel]; discriminate. }
  set (ring := first :: ring') in *.
  pose proof (hash_ketama_range key nkey) as Hrange.
  pose proof (rank_le_length (hash_ketama key nkey) ring) as Hrank.
  destruct (search_loop_finds_successor ring first (hash_ketama key nkey) Hasc eq_refl
              (proj1 Hrange) (S (List.length ring)) 0 (Z.of_nat (List.length ring)))
    as (owner & Hsucc & Hsearch); try lia.
  exists owner. rewrite (search_loop_agree _ _ _ _ _ _ _ _ _ Hm Hsearch). auto.
Qed.

End Adding.

Section AddingServer.

Context {env : Env}.

(** What a reconfiguration that succeeds installs, in terms of the list. *)
Lemma reconfigure_success_ring (config : cluster_config)
    (server_list : list (list byte)) (h : heap)
    (config' : cluster_config) (server_list' : list (list byte)) (h' : heap) :
  cluster_config_reconfigure config server_list h = Ret (true, config', server_list', h') ->
  exists unsorted,
    server_loop (map registry_entry server_list) = Ret unsorted /\
    continuum config' = Some (qsort continuum_item_cmp unsorted) /\
    servers config' = Some (map registry_entry server_list) /\
    is_valid config' = true /\
    num_continuum config'
    = Z.of_nat (List.length (qsort continuum_item_cmp unsorted)) /\
    num_servers config' = Z.of_nat (List.length server_list) /\
    self_hostport config' = self_hostport config.
Proof.
  intros H. apply reconfigure_inv in H.
  destruct H as [[Hf _]|[_ (srv & self & h1 & unsorted & Hpop & Hloop & ->)]];
    [discriminate|].
  apply server_item_populate_success in Hpop.
  destruct Hpop as (st & _ & _ & _ & _ & ->).
  exists unsorted. cbn. repeat split; trivial.
  now rewrite <- (Permutation_length (qsort_permutation continuum_item_cmp unsorted)).
Qed.

(** X3.  Appending a server to the list moves keys only to the new server:
    when the ring installed for a list has no point shared by two servers,
    a key that the ring for the list with one more token at its end does
    not give to the new server (index: the length of the old list) stays
    with the server that the old ring gave it to.  Read backwards: dropping
    the last server of a list moves only the keys of that server. *)
Theorem appended_server_takes_or_leaves (config1 config2 : cluster_config)
    (server_list : list (list byte)) (token : list byte) (h1 h2 : heap)
    (installed1 installed2 : cluster_config)
    (left1 left2 : list (list byte)) (h1' h2' : heap)
    (ring1 : list continuum_item)
    (key : list byte) (nkey : Z) (fuel1 fuel2 : nat)
    (mine1 mine2 : bool) (owner1 owner2 self1 self2 : Z) :
  cluster_config_reconfigure config1 server_list h1
    = Ret (true, installed1, left1, h1') ->
  cluster_config_reconfigure config2 (server_list ++ [token]) h2
    = Ret (true, installed2, left2, h2') ->
  continuum installed1 = Some ring1 ->
  ties_agree ring1 ->
  cluster_config_key_is_mine fuel1 installed1 key nkey
    = Ret (mine1, Some (owner1, self1)) ->
  cluster_config_key_is_mine fuel2 installed2 key nkey
    = Ret (mine2, Some (owner2, self2)) ->
  owner2 = owner1 \/ owner2 = Z.of_nat (List.length server_list).
Proof.
  intros Hre1 Hre2 Hring1 Hties Hlook1 Hlook2.
  apply reconfigure_success_ring in Hre1, Hre2.
  destruct Hre1 as (unsorted1 & Hloop1 & Hc1 & _ & Hv1 & Hn1 & _).
  destruct Hre2 as (unsorted2 & Hloop2 & Hc2 & _ & Hv2 & Hn2 & _).
  rewrite Hring1 in Hc1. injection Hc1 as ->.
  rewrite map_app in Hloop2. cbn [map] in Hloop2.
  apply server_loop_snoc in Hloop2.
  destruct Hloop2 as (unsorted1' & added & Hloop1' & Hadded & ->).
  rewrite Hloop1 in Hloop1'. injection Hloop1' as <-.
  rewrite length_map in Hadded. apply hash_loop_shape in Hadded.
  destruct Hadded as [_ Hadded]. rewrite Forall_forall in Hadded.
  pose proof (qsort_permutation continuum_item_cmp unsorted1) as Hperm1.
  pose proof (qsort_permutation continuum_item_cmp (unsorted1 ++ added)) as Hperm2.
  apply lookup_returns_successor with (ring := qsort continuum_item_cmp unsorted1)
    in Hlook1; trivial; [|apply qsort_ascending].
  apply lookup_returns_successor
    with (ring := qsort continuum_item_cmp (unsorted1 ++ added))
    in Hlook2; trivial; [|apply qsort_ascending].
  destruct Hlook1 as (e1 & Hsucc1 & [= -> _] & _).
  destruct Hlook2 as (e2 & Hsucc2 & [= -> _] & _).
  destruct (successor_after_insertion _ _ _ added _ _
              (qsort_ascending unsorted1) (qsort_ascending (unsorted1 ++ added))
              ltac:(intros e He; apply (Permutation_in e Hperm2), in_or_app; left;
                    now apply (Permutation_in e (Permutation_sym Hperm1)))
              ltac:(intros e He;
                    apply (Permutation_in e (Permutation_sym Hperm2)), in_app_or in He;
                    destruct He as [He|He]; [left|now right];
                    now apply (Permutation_in e Hperm1))
              Hties Hsucc1 Hsucc2) as [Hnew|Hsame].
  - right. now apply Hadded.
  - now left.
Qed.

End AddingServer.

Lemma strictly_ascendingb_ties (ring : list continuum_item) :
  strictly_ascendingb ring = true -> ties_agree ring.
Proof.
  intros H.
  assert (StronglySorted (fun a b => point a < point b) ring) as Hsorted.
  { apply Sorted_StronglySorted; [intros a b c; lia|].
    induction ring as [|a ring IH]; [constructor|].
    destruct ring as [|b ring]; [repeat constructor|].
    cbn [strictly_ascendingb] in H. apply andb_prop in H. destruct H as [Hab Hrest].
    constructor; [now apply IH|]. constructor. now apply Z.ltb_lt. }
  clear H. induction Hsorted as [|x ring _ IH Hx]; intros a b Ha Hb Hpoint; [destruct Ha|].
  rewrite Forall_forall in Hx.
  destruct Ha as [<-|Ha], Hb as [<-|Hb]; trivial.
  - specialize (Hx b Hb). lia.
  - specialize (Hx a Ha). lia.
  - now apply IH.
Qed.

Lemma appended_server_takes_or_leaves_witness :
  (2 : Z) = 0 \/ (2 : Z) = Z.of_nat (List.length example_servers).
Proof.
  apply (@appended_server_takes_or_leaves E (handle_for "host:1") (handle_for "host:1")
           example_servers (cstr "host:3") [] []
           example_config
           (@reconfigured E (handle_for "host:1") (example_servers ++ [cstr "host:3"]) [])
           [store (cstr "host:1-zoneA") 6 NUL; cstr "host:2"]
           [store (cstr "host:1-zoneA") 6 NUL; cstr "host:2"; cstr "host:3"] [] []
           example_ring (cstr "foo") 3 321 481 true false 0 2 0 0).
  - vm_compute. reflexivity.
  - vm_compute. reflexivity.
  - reflexivity.
  - apply strictly_ascendingb_ties. vm_compute. reflexivity.
  - vm_compute. reflexivity.
  - vm_compute. reflexivity.
Defined.

(** ** Lookups after a reconfiguration *)

Section AfterReconfigure.

Context {env : Env}.

(** X4.  After a reconfiguration that succeeds on a list that is not
    empty, the lookup of any key returns, with any budget above the 160
    points per server, and the owner it stores through [key_id] is an index
    into the installed server list; it returns true exactly when that
    owner is the installed self index. *)
Theorem lookup_after_reconfigure (config : cluster_config)
    (server_list : list (list byte)) (h : heap)
    (config' : cluster_config) (server_list' : list (list byte)) (h' : heap)
    (key : list byte) (nkey : Z) (fuel : nat) :
  cluster_config_reconfigure config server_list h = Ret (true, config', server_list', h') ->
  server_list <> [] ->
  (List.length server_list * 160 < fuel)%nat ->
  exists owner,
    cluster_config_key_is_mine fuel config' key nkey
    = Ret (owner =? self_id config', Some (owner, self_id config')) /\
    0 <= owner < cluster_config_num_servers config' /\
    cluster_config_num_servers config' = Z.of_nat (List.length server_list).
Proof.
  intros Hre Hne Hfuel.
  pose proof (reconfigure_success_ring _ _ _ _ _ _ Hre)
    as (unsorted & _ & _ & _ & _ & _ & Hnum & _).
  apply reconfigure_installs in Hre.
  destruct Hre as (srv & ring & [Hsrv Hring Hns Hnc Hlen Hasc Hidx] & Hvalid & ->).
  rewrite length_map in *.
  destruct ring as [|first ring'].
  { destruct server_list; [contradiction | discriminate]. }
  set (ring := first :: ring') in *.
  pose proof (hash_ketama_range key nkey) as Hrange.
  pose proof (rank_le_length (hash_ketama key nkey) ring) as Hrank.
  destruct (search_loop_finds_successor ring first (hash_ketama key nkey) Hasc eq_refl
              (proj1 Hrange) fuel 0 (Z.of_nat (List.length ring)))
    as (owner & Hsucc & Hsearch); try lia.
  exists (index owner). unfold cluster_config_key_is_mine, cluster_config_num_servers.
  rewrite Hring, Hvalid, Hnc. cbn [negb]. rewrite Hsearch. cbn [bind].
  split; [reflexivity|]. rewrite Hnum. split; [|reflexivity].
  apply successor_least in Hsucc; trivial. destruct Hsucc as [Hin _].
  rewrite Forall_forall in Hidx. specialize (Hidx owner Hin). lia.
Qed.

(** X5.  After a reconfiguration that fails, the lookup of any key, with
    any budget, returns true and stores nothing when a ring had been
    installed before the call, whether the handle was valid or not; when no
    ring had ever been installed the assertion on the ring pointer ends the
    lookup. *)
Theorem lookup_after_failed_reconfigure (config : cluster_config)
    (server_list : list (list byte)) (h : heap)
    (config' : cluster_config) (server_list' : list (list byte)) (h' : heap)
    (key : list byte) (nkey : Z) (fuel : nat) :
  cluster_config_reconfigure config server_list h
    = Ret (false, config', server_list', h') ->
  cluster_config_key_is_mine fuel config' key nkey
  = match continuum config with
    | Some _ => Ret (true, None)
    | None => Abort
    end.
Proof.
  intros Hre. apply reconfigure_inv in Hre.
  destruct Hre as [(_ & -> & _)|[Hf _]]; [|discriminate].
  unfold cluster_config_key_is_mine, reconfig_failed. cbn.
  now destruct (continuum config).
Qed.

(** X6.  The empty server list: when both arrays are served, the
    reconfiguration succeeds and installs a valid state with no server and
    no ring point, whatever the handle; the lookup of any key on that state
    then reads the entry at index 0 of an array without entries. *)
Theorem empty_list_installs_empty_ring (config : cluster_config) (h : heap)
    (key : list byte) (nkey : Z) (fuel : nat) :
  fst (alloc h) = true ->
  fst (alloc (snd (alloc h))) = true ->
  exists config' h',
    cluster_config_reconfigure config [] h = Ret (true, config', [], h') /\
    cluster_config_is_valid config' = true /\
    cluster_config_num_servers config' = 0 /\
    cluster_config_num_continuum config' = 0 /\
    continuum config' = Some [] /\
    cluster_config_key_is_mine (S fuel) config' key nkey = Undefined.
Proof.
  intros H1 H2. unfold cluster_config_reconfigure, server_item_populate.
  destruct (alloc h) as [served1 h1]. cbn in H1, H2. subst served1.
  cbn [negb populate_loop bind scanned filled found_self heap_left].
  unfold ketama_continuum_generate.
  destruct (alloc h1) as [served2 h2]. cbn in H2. subst served2.
  cbn [negb]. change (server_loop []) with (@Ret (list continuum_item) []).
  cbn [bind List.length Z.of_nat].
  assert (qsort continuum_item_cmp [] = []) as ->.
  { apply Permutation_nil. apply qsort_permutation. }
  eexists. eexists. repeat split.
Qed.

End AfterReconfigure.

Lemma lookup_after_reconfigure_witness :
  exists owner,
    @cluster_config_key_is_mine E 321 example_config (cstr "foo") 3
    = Ret (owner =? self_id example_config, Some (owner, self_id example_config)) /\
    0 <= owner < cluster_config_num_servers example_config /\
    cluster_config_num_servers example_config = Z.of_nat (List.length example_servers).
Proof.
  apply (@lookup_after_reconfigure E (handle_for "host:1") example_servers []
           example_config [store (cstr "host:1-zoneA") 6 NUL; cstr "host:2"] []
           (cstr "foo") 3 321).
  - vm_compute. reflexivity.
  - discriminate.
  - cbn. lia.
Defined.

Lemma lookup_after_failed_reconfigure_witness :
  @cluster_config_key_is_mine E 0 example_invalid_config example_key 8
  = match continuum example_config with
    | Some _ => Ret (true, None)
    | None => Abort
    end.
Proof.
  apply (@lookup_after_failed_reconfigure E example_config example_servers [false]
           example_invalid_config example_servers [] example_key 8 0).
  reflexivity.
Defined.

Lemma empty_list_installs_empty_ring_witness :
  exists config' h',
    @cluster_config_reconfigure E example_config [] [] = Ret (true, config', [], h') /\
    cluster_config_is_valid config' = true /\
    cluster_config_num_servers config' = 0 /\
    cluster_config_num_continuum config' = 0 /\
    continuum config' = Some [] /\
    @cluster_config_key_is_mine E 1 config' example_key 8 = Undefined.
Proof.
  apply (@empty_list_installs_empty_ring E example_config [] example_key 8 0);
    reflexivity.
Defined.

(** ** Inputs that the code does not guard against *)

Lemma alloc_served (h : heap) :
  served h -> fst (alloc h) = true /\ served (snd (alloc h)).
Proof.
  unfold served. destruct 1 as [|b h <- Hh]; cbn; auto.
Qed.

(** [strtok_r] finds no token exactly in the strings made of separators. *)
Lemma strtok_r_finds_no_token (token : list byte) :
  fst (strtok_r token (cstr "-")) = None <-> Forall (eq DASH) (c_string token).
Proof.
  induction token as [|b rest IH].
  - split; [constructor | reflexivity].
  - cbn [c_string]. destruct (is_nul b) eqn:Hnul.
    + rewrite strtok_r_empty by (cbn; now rewrite Hnul). split; [constructor | reflexivity].
    + destruct (Byte.eqb b DASH) eqn:Hdash.
      * rewrite strtok_r_separator by assumption. cbn [fst].
        apply Byte.byte_dec_bl in Hdash. subst b.
        destruct (fst (strtok_r rest (cstr "-"))) as [start|]; cbn [option_map].
        -- split; [discriminate|]. intros H. inversion H as [|? ? _ Hrest]; subst.
           apply IH in Hrest. discriminate.
        -- split; [|reflexivity]. intros _. constructor; [reflexivity | now apply IH].
      * rewrite strtok_r_token by assumption. cbn [fst].
        split; [discriminate|]. intros H. inversion H; subst.
        now rewrite byte_eqb_refl in Hdash.
Qed.

Lemma registry_entry_none (token : list byte) :
  Forall (eq DASH) (c_string token) -> registry_entry token = mk_server None.
Proof.
  intros H. apply strtok_r_finds_no_token in H. unfold registry_entry.
  destruct (strtok_r token (cstr "-")) as [[start|] buf]; [discriminate | reflexivity].
Qed.

Lemma registry_entry_some (token : list byte) :
  ~ Forall (eq DASH) (c_string token) -> hostport (registry_entry token) <> None.
Proof.
  intros H Hnone. apply H. apply strtok_r_finds_no_token. unfold registry_entry in Hnone.
  destruct (strtok_r token (cstr "-")) as [[start|] buf]; [discriminate | reflexivity].
Qed.

(** With the own address set and every request served the scan reaches the
    end of the list. *)
Lemma populate_loop_served (self : list byte) (rest : list (list byte)) :
  forall (i : Z) (st : populate_state),
  served (heap_left st) ->
  exists st',
    populate_loop (Some self) i rest st
    = Ret (Continue st', scanned st ++ map described_truncation rest) /\
    filled st' = filled st ++ map registry_entry rest /\
    served (heap_left st').
Proof.
  induction rest as [|token rest IH]; intros i st Hserved.
  - exists st. cbn. rewrite !app_nil_r. auto.
  - cbn [populate_loop].
    assert (exists st1, populate_token (Some self) i token st
                        = Ret (Continue st1, described_truncation token) /\
                        scanned st1 = scanned st ++ [described_truncation token] /\
                        filled st1 = filled st ++ [registry_entry token] /\
                        served (heap_left st1)) as (st1 & -> & Hsc & Hfi & Hs1).
    { unfold populate_token, registry_entry. rewrite <- strtok_r_buffer.
      destruct (strtok_r token (cstr "-")) as [[start|] buf]; cbn [snd].
      - unfold strdup. destruct (alloc_served _ Hserved) as [Hfst Hsnd].
        destruct (alloc (heap_left st)) as [ok h1]. cbn in Hfst, Hsnd. subst ok.
        eexists. split; [reflexivity|]. cbn. auto.
      - eexists. split; [reflexivity|]. cbn. auto. }
    cbn [bind]. destruct (IH (i + 1) st1 Hs1) as (st' & -> & Hfi' & Hs').
    exists st'. rewrite Hsc, Hfi', Hfi, <- !app_assoc. cbn. auto.
Qed.

Lemma server_item_populate_served (server_list : list (list byte))
    (self : list byte) (self_id0 : Z) (h : heap) :
  served h ->
  exists found h',
    server_item_populate server_list (Some self) self_id0 h
    = Ret (Some (map registry_entry server_list, found),
           map described_truncation server_list, h') /\
    served h'.
Proof.
  intros Hserved. unfold server_item_populate.
  destruct (alloc_served h Hserved) as [Hfst Hsnd].
  destruct (alloc h) as [ok h0]. cbn in Hfst, Hsnd. subst ok. cbn [negb].
  destruct (populate_loop_served self server_list 0 (mk_populate [] [] self_id0 h0) Hsnd)
    as (st' & -> & Hfi & Hs').
  cbn [bind]. cbn in Hfi. rewrite Hfi. cbn. eauto.
Qed.

(** Without an own address the scan passes NULL to [strcmp] at the first
    token that has an address. *)
Lemma populate_loop_unset (rest : list (list byte)) :
  forall (i : Z) (st : populate_state),
  served (heap_left st) ->
  (exists token, In token rest /\ ~ Forall (eq DASH) (c_string token)) ->
  populate_loop None i rest st = Undefined.
Proof.
  induction rest as [|token rest IH]; intros i st Hserved (t & Hin & Ht); [destruct Hin|].
  cbn [populate_loop]. unfold populate_token.
  destruct (strtok_r token (cstr "-")) as [[start|] buf] eqn:Htok.
  - unfold strdup. destruct (alloc_served _ Hserved) as [Hfst _].
    destruct (alloc (heap_left st)) as [ok h1]. cbn in Hfst. subst ok. reflexivity.
  - cbn [bind]. apply IH; [exact Hserved|].
    exists t. split; [|exact Ht]. destruct Hin as [<-|Hin]; [|exact Hin].
    exfalso. apply Ht. apply strtok_r_finds_no_token. now rewrite Htok.
Qed.

Lemma for_each_undefined {A B : Type} (body : A -> outcome (list B)) (l : list A) :
  (forall a, In a l -> body a = Undefined \/ exists out, body a = Ret out) ->
  (exists a, In a l /\ body a = Undefined) ->
  for_each body l = Undefined.
Proof.
  induction l as [|a l IH]; intros Hall (x & Hin & Hx); [destruct Hin|].
  cbn [for_each]. destruct (Hall a (or_introl eq_refl)) as [->|[out Hout]]; [reflexivity|].
  rewrite Hout. cbn [bind]. rewrite IH; [reflexivity | |].
  - intros b Hb. apply Hall. now right.
  - exists x. split; [|exact Hx]. destruct Hin as [<-|Hin]; [congruence | exact Hin].
Qed.

Lemma for_each_ret_or_undefined {A B : Type} (body : A -> outcome (list B)) (l : list A) :
  (forall a, In a l -> body a = Undefined \/ exists out, body a = Ret out) ->
  for_each body l = Undefined \/ exists out, for_each body l = Ret out.
Proof.
  induction l as [|a l IH]; intros Hall; [right; eexists; reflexivity|].
  cbn [for_each]. destruct (Hall a (or_introl eq_refl)) as [->|[out ->]]; [now left|].
  cbn [bind]. destruct IH as [->|[outs ->]]; [intros b Hb; apply Hall; now right | |].
  - now left.
  - right. eexists. reflexivity.
Qed.

Lemma combine_covers {A B : Type} (idx : list A) (l : list B) (b : B) :
  List.length idx = List.length l -> In b l -> exists a, In (a, b) (combine idx l).
Proof.
  revert idx. induction l as [|x l IH]; intros [|i idx] Hlen Hin;
    try discriminate; [destruct Hin|].
  destruct Hin as [->|Hin].
  - exists i. now left.
  - destruct (IH idx) as [a Ha]; [now injection Hlen | exact Hin |].
    exists a. now right.
Qed.

Section Unguarded.

Context {env : Env}.

(** A server's rounds return or run into undefined behaviour. *)
Lemma hash_loop_ret_or_undefined (ss : Z) (server : server_item) :
  hash_loop ss server = Undefined \/ exists points, hash_loop ss server = Ret points.
Proof.
  apply for_each_ret_or_undefined. intros hh _. unfold snprintf_host.
  destruct (hostport server) as [address|]; [|now left].
  destruct (_ <? _).
  { right. cbn [bind]. rewrite point_loop. eexists. reflexivity. }
  destruct (_ =? _); [|now left].
  right. cbn [bind]. rewrite point_loop. eexists. reflexivity.
Qed.

(** The first round of a server without address hands NULL to [snprintf];
    the first round of a server whose text "<address>-0" is longer than
    the array [host] reads past the array. *)
Lemma hash_loop_unguarded (ss : Z) (server : server_item) :
  hostport server = None \/
  MAX_SERVER_ITEM_COUNT + 10 < Z.of_nat (List.length (server_address server)) + 2 ->
  hash_loop ss server = Undefined.
Proof.
  intros H. unfold hash_loop. change (range NUM_OF_HASHES) with (0 :: skipn 1 (range 40)).
  cbn [for_each]. unfold snprintf_host, server_address in *.
  destruct (hostport server) as [address|]; [|reflexivity].
  destruct H as [H|H]; [discriminate|].
  change (utoa 0) with [x30]. rewrite length_app. cbn [List.length].
  destruct (Z.ltb_spec (Z.of_nat (List.length (c_string address) + 2))
                       (MAX_SERVER_ITEM_COUNT + 10)); [lia|].
  destruct (Z.eqb_spec (Z.of_nat (List.length (c_string address) + 2))
                       (MAX_SERVER_ITEM_COUNT + 10)); [lia|].
  reflexivity.
Qed.

Lemma server_loop_unguarded (srv : list server_item) (server : server_item) :
  In server srv ->
  hostport server = None \/
  MAX_SERVER_ITEM_COUNT + 10 < Z.of_nat (List.length (server_address server)) + 2 ->
  server_loop srv = Undefined.
Proof.
  intros Hin Hbad. unfold server_loop. apply for_each_undefined.
  - intros [ss s] _. apply hash_loop_ret_or_undefined.
  - destruct (combine_covers (range (Z.of_nat (List.length srv))) srv server)
      as [ss Hss]; [now rewrite range_length | exact Hin |].
    exists (ss, server). split; [exact Hss | now apply hash_loop_unguarded].
Qed.

Lemma ketama_continuum_generate_unguarded (srv : list server_item)
    (server : server_item) (h : heap) :
  fst (alloc h) = true ->
  In server srv ->
  hostport server = None \/
  MAX_SERVER_ITEM_COUNT + 10 < Z.of_nat (List.length (server_address server)) + 2 ->
  ketama_continuum_generate srv h = Undefined.
Proof.
  intros Hserved Hin Hbad. unfold ketama_continuum_generate.
  destruct (alloc h) as [ok h']. cbn in Hserved. subst ok. cbn [negb].
  now rewrite (server_loop_unguarded srv server).
Qed.

Lemma strtok_r_no_token_buffer (token : list byte) :
  fst (strtok_r token (cstr "-")) = None -> snd (strtok_r token (cstr "-")) = token.
Proof.
  unfold strtok_r. destruct (is_nul (char_at token (strspn token (cstr "-"))));
    [reflexivity|].
  destruct (is_nul (char_at token _)); discriminate.
Qed.

(** X7.  A token whose string holds no character but separators (the
    empty string among them) gets no address: when the registry returns
    true, the entry at the token's index keeps the NULL that [calloc] put
    there, the token's buffer is left as it was, and the server array still
    has one entry for each token; the registry reports nothing. *)
Theorem token_without_address_keeps_null (server_list : list (list byte))
    (self_hostport : option (list byte)) (self_id0 : Z) (h : heap)
    (srv : list server_item) (self : Z) (server_list' : list (list byte)) (h' : heap)
    (k : nat) (token : list byte) :
  server_item_populate server_list self_hostport self_id0 h
    = Ret (Some (srv, self), server_list', h') ->
  nth_error server_list k = Some token ->
  Forall (eq DASH) (c_string token) ->
  nth_error srv k = Some (mk_server None) /\
  nth_error server_list' k = Some token /\
  List.length srv = List.length server_list.
Proof.
  intros Hpop Hnth Htoken. apply server_item_populate_success in Hpop.
  destruct Hpop as (st & _ & _ & _ & -> & ->).
  rewrite !nth_error_map, Hnth, length_map. cbn [option_map].
  rewrite registry_entry_none by exact Htoken.
  rewrite <- strtok_r_buffer, strtok_r_no_token_buffer; [auto|].
  now apply strtok_r_finds_no_token.
Qed.

(** X8.  On a handle whose own address is not set (it was never set, or
    [strndup] failed when it was), a reconfiguration with every allocation
    served and a list in which some token has a character other than the
    separator hands the NULL own address to [strcmp]: it runs into
    undefined behaviour instead of returning. *)
Theorem reconfigure_without_own_address (config : cluster_config)
    (server_list : list (list byte)) (h : heap) (token : list byte) :
  self_hostport config = None ->
  served h ->
  In token server_list ->
  Exists (fun b => b <> DASH) (c_string token) ->
  cluster_config_reconfigure config server_list h = Undefined.
Proof.
  intros Hself Hserved Hin Htoken.
  unfold cluster_config_reconfigure, server_item_populate. rewrite Hself.
  destruct (alloc_served h Hserved) as [Hfst Hsnd].
  destruct (alloc h) as [ok h0]. cbn in Hfst, Hsnd. subst ok. cbn [negb].
  rewrite populate_loop_unset; [reflexivity | exact Hsnd |].
  exists token. split; [exact Hin|]. intros Hall.
  apply Exists_exists in Htoken. destruct Htoken as (b & Hb & Hne).
  rewrite Forall_forall in Hall. apply Hne. symmetry. now apply Hall.
Qed.

(** X9.  An address of more than MAX_SERVER_ITEM_COUNT + 8 bytes does not
    fit the array [host]: [snprintf] returns the length of the whole text
    "<address>-0", and [hash_md5] then reads that many bytes, past the end
    of the array.  With the own address set and every allocation served, a
    reconfiguration with a token for which the registry keeps such an
    address runs into undefined behaviour instead of returning. *)
Theorem long_address_overruns_host (config : cluster_config)
    (server_list : list (list byte)) (h : heap) (token : list byte) :
  self_hostport config <> None ->
  served h ->
  In token server_list ->
  MAX_SERVER_ITEM_COUNT + 8
  < Z.of_nat (List.length (server_address (registry_entry token))) ->
  cluster_config_reconfigure config server_list h = Undefined.
Proof.
  intros Hself Hserved Hin Hlong. unfold cluster_config_reconfigure.
  destruct (self_hostport config) as [self|]; [|contradiction].
  destruct (server_item_populate_served server_list self 0 h Hserved)
    as (found & h1 & -> & Hs1).
  cbn [bind].
  rewrite (ketama_continuum_generate_unguarded _ (registry_entry token));
    [reflexivity | now apply alloc_served | now apply in_map |].
  right. lia.
Qed.

End Unguarded.

Lemma token_without_address_keeps_null_witness :
  nth_error [mk_server (Some (cstr "host:1")); mk_server None] 1
  = Some (mk_server None) /\
  nth_error [cstr "host:1"; cstr "--"] 1 = Some (cstr "--") /\
  List.length [mk_server (Some (cstr "host:1")); mk_server None]
  = List.length [cstr "host:1"; cstr "--"].
Proof.
  apply (token_without_address_keeps_null [cstr "host:1"; cstr "--"]
           (Some (cstr "host:1")) 0 [] _ 0 [cstr "host:1"; cstr "--"] [] 1 (cstr "--")).
  - reflexivity.
  - reflexivity.
  - repeat constructor.
Defined.

Lemma reconfigure_without_own_address_witness :
  @cluster_config_reconfigure E fresh_handle example_servers [] = Undefined.
Proof.
  apply (@reconfigure_without_own_address E fresh_handle example_servers []
           (cstr "host:2")).
  - reflexivity.
  - constructor.
  - right. now left.
  - left. discriminate.
Defined.

Lemma long_address_overruns_host_witness :
  @cluster_config_reconfigure E (handle_for "host:1")
     [cstr "host:1"; repeat x61 109] [] = Undefined.
Proof.
  apply (@long_address_overruns_host E (handle_for "host:1")
           [cstr "host:1"; repeat x61 109] [] (repeat x61 109)).
  - discriminate.
  - constructor.
  - right. now left.
  - vm_compute. reflexivity.
Defined.

(** ** Points are 32-bit little-endian values *)

Section Points.

Context {env : Env}.

(** X10.  The point of a key is the little-endian value of the first four
    bytes of the MD5 digest of its first [nkey] bytes, a number below 2^32:
    the shifts and ors of [hash_ketama] lose no bit. *)
Theorem key_point_little_endian (key : list byte) (nkey : Z) :
  hash_ketama key nkey
  = digest_at (MD5 (firstn (Z.to_nat nkey) key)) 0
    + 2 ^ 8 * digest_at (MD5 (firstn (Z.to_nat nkey) key)) 1
    + 2 ^ 16 * digest_at (MD5 (firstn (Z.to_nat nkey) key)) 2
    + 2 ^ 24 * digest_at (MD5 (firstn (Z.to_nat nkey) key)) 3 /\
  0 <= hash_ketama key nkey < 2 ^ 32.
Proof.
  split; [|apply hash_ketama_range].
  unfold hash_ketama, hash_md5, to_uint32.
  rewrite compose_little_endian by apply digest_at_range.
  set (digest := MD5 (firstn (Z.to_nat nkey) key)).
  pose proof (digest_at_range digest 0). pose proof (digest_at_range digest 1).
  pose proof (digest_at_range digest 2). pose proof (digest_at_range digest 3).
  apply Z.mod_small. lia.
Qed.

Lemma pointFromDigest_range (digest : list byte) (offset : Z) :
  0 <= pointFromDigest digest offset < 2 ^ 32.
Proof.
  unfold pointFromDigest.
  pose proof (digest_at_range digest offset).
  pose proof (digest_at_range digest (offset + 1)).
  pose proof (digest_at_range digest (offset + 2)).
  pose proof (digest_at_range digest (offset + 3)). lia.
Qed.

Lemma hash_loop_points_range (ss : Z) (server : server_item)
    (points : list continuum_item) :
  hash_loop ss server = Ret points ->
  Forall (fun p => 0 <= point p < 2 ^ 32) points.
Proof.
  intros H. eapply for_each_Forall; [|exact H].
  intros hh o _ Ho. bind_inv Ho. rewrite point_loop in Ho. injection Ho as <-.
  repeat constructor; apply pointFromDigest_range.
Qed.

(** X11.  Every point of a ring that a reconfiguration installs is a
    32-bit value: it lies in [0, 2^32), as the key points do, so that the
    unsigned comparisons of the lookup compare like with like. *)
Theorem installed_points_are_32_bit (config : cluster_config)
    (server_list : list (list byte)) (h : heap)
    (config' : cluster_config) (server_list' : list (list byte)) (h' : heap)
    (ring : list continuum_item) :
  cluster_config_reconfigure config server_list h = Ret (true, config', server_list', h') ->
  continuum config' = Some ring ->
  Forall (fun p => 0 <= point p < 2 ^ 32) ring.
Proof.
  intros Hre Hring. apply reconfigure_success_ring in Hre.
  destruct Hre as (unsorted & Hloop & Hc & _). rewrite Hring in Hc. injection Hc as ->.
  eapply Permutation_Forall; [apply qsort_permutation|].
  unfold server_loop in Hloop. eapply for_each_Forall; [|exact Hloop].
  intros [ss server] o _ Ho. now apply hash_loop_points_range in Ho.
Qed.

End Points.

Lemma installed_points_are_32_bit_witness :
  Forall (fun p => 0 <= point p < 2 ^ 32) example_ring.
Proof.
  apply (@installed_points_are_32_bit E (handle_for "host:1") example_servers []
           example_config [store (cstr "host:1-zoneA") 6 NUL; cstr "host:2"] []
           example_ring).
  - vm_compute. reflexivity.
  - reflexivity.
Defined.

(** ** The comparison handed to [qsort] *)

(** X12.  [continuum_item_cmp] orders entries by their points alone and is
    consistent, as [qsort] requires of a comparison: it returns -1, 0 or 1;
    swapping the arguments negates the result; it returns 0 exactly for
    equal points (whatever the server indices) and a negative number
    exactly when the first point is the smaller; and it is transitive. *)
Theorem continuum_item_cmp_consistent (a b c : continuum_item) :
  (continuum_item_cmp a b = -1 \/ continuum_item_cmp a b = 0 \/
   continuum_item_cmp a b = 1) /\
  continuum_item_cmp b a = - continuum_item_cmp a b /\
  (continuum_item_cmp a b = 0 <-> point a = point b) /\
  (continuum_item_cmp a b < 0 <-> point a < point b) /\
  (continuum_item_cmp a b <= 0 -> continuum_item_cmp b c <= 0 ->
   continuum_item_cmp a c <= 0).
Proof.
  unfold continuum_item_cmp.
  destruct (Z.eqb_spec (point a) (point b)), (Z.eqb_spec (point b) (point a)),
    (Z.eqb_spec (point b) (point c)), (Z.eqb_spec (point a) (point c)),
    (Z.gtb_spec (point a) (point b)), (Z.gtb_spec (point b) (point a)),
    (Z.gtb_spec (point b) (point c)), (Z.gtb_spec (point a) (point c));
    repeat split; intros; try lia; auto.
Qed.

(** ** The self index *)

Lemma populate_loop_self_cases (self_hostport : option (list byte))
    (rest : list (list byte)) :
  forall (i : Z) (st st' : populate_state) (server_list' : list (list byte)),
  populate_loop self_hostport i rest st = Ret (Continue st', server_list') ->
  (found_self st' = found_self st /\
   forall token, In token rest -> ~ own_address self_hostport (registry_entry token)) \/
  (exists (k : nat) (token : list byte),
      nth_error rest k = Some token /\
      own_address self_hostport (registry_entry token) /\
      found_self st' = i + Z.of_nat k).
Proof.
  induction rest as [|token rest IH]; intros i st st' sl' H; cbn in H.
  - injection H as <- _. left. split; [reflexivity | intros t []].
  - bind_inv H. destruct a as [next token'].
    destruct next as [st1|h1]; [|discriminate].
    apply populate_token_continue in Hm. destruct Hm as (_ & _ & _ & Hself).
    apply IH in H. destruct H as [[Heq Hnone]|(k & t & Hnth & Hown & Hfound)].
    + destruct Hself as [[Hi Hown]|[Hkeep Hnot]].
      * right. exists O, token. repeat split; trivial. rewrite Heq, Hi. cbn. lia.
      * left. split; [congruence|]. intros t [<-|Ht]; auto.
    + right. exists (S k), t. repeat split; trivial. rewrite Hfound. lia.
Qed.

(** X13.  When some token's address, as the registry stores it, equals the
    node's own address, the self index that a successful reconfiguration
    installs is an index into the installed server list, and the entry at
    that index holds the node's own address. *)
Theorem self_index_designates_own_address {env : Env} (config : cluster_config)
    (server_list : list (list byte)) (h : heap)
    (config' : cluster_config) (server_list' : list (list byte)) (h' : heap)
    (token : list byte) :
  cluster_config_reconfigure config server_list h = Ret (true, config', server_list', h') ->
  In token server_list ->
  own_address (self_hostport config) (registry_entry token) ->
  exists srv entry,
    servers config' = Some srv /\
    0 <= self_id config' < cluster_config_num_servers config' /\
    nth_error srv (Z.to_nat (self_id config')) = Some entry /\
    own_address (self_hostport config') entry.
Proof.
  intros Hre Hin Hown.
  pose proof (reconfigure_success_ring _ _ _ _ _ _ Hre)
    as (unsorted & _ & _ & Hsrv & _ & _ & Hnum & Hself).
  apply reconfigure_self_index in Hre. destruct Hre as (st & sl & Hloop & Hid).
  apply populate_loop_self_cases in Hloop.
  destruct Hloop as [[_ Hnone]|(k & t & Hnth & Hownt & Hfound)].
  { exfalso. now apply (Hnone token). }
  cbn in Hfound. exists (map registry_entry server_list), (registry_entry t).
  unfold cluster_config_num_servers. rewrite Hid, Hfound, Hnum, Hself, Nat2Z.id.
  repeat split; trivial; try lia.
  - assert (k < List.length server_list)%nat by (apply nth_error_Some; congruence). lia.
  - now rewrite nth_error_map, Hnth.
Qed.

Lemma self_index_designates_own_address_witness :
  exists srv entry,
    servers example_config_2 = Some srv /\
    0 <= self_id example_config_2 < cluster_config_num_servers example_config_2 /\
    nth_error srv (Z.to_nat (self_id example_config_2)) = Some entry /\
    own_address (self_hostport example_config_2) entry.
Proof.
  apply (@self_index_designates_own_address E (handle_for "host:2") example_servers []
           example_config_2 [store (cstr "host:1-zoneA") 6 NUL; cstr "host:2"] []
           (cstr "host:2")).
  - vm_compute. reflexivity.
  - right. now left.
  - reflexivity.
Defined.

(** ** What of a token a reconfiguration depends on *)

Lemma registry_entry_separator (b : byte) (rest : list byte) :
  is_nul b = false -> Byte.eqb b DASH = true ->
  registry_entry (b :: rest)
  = match hostport (registry_entry rest) with
    | None => mk_server None
    | Some address => mk_server (Some (b :: address))
    end.
Proof.
  intros Hnul Hdash. unfold registry_entry. rewrite strtok_r_separator by assumption.
  destruct (strtok_r rest (cstr "-")) as [[start|] buf]; cbn; [|reflexivity].
  now rewrite Hnul.
Qed.

Lemma overwrite_separator_idempotent (seen : bool) (buf : list byte) :
  overwrite_separator seen (overwrite_separator seen buf) = overwrite_separator seen buf.
Proof.
  revert seen. induction buf as [|b rest IH]; intros seen; [reflexivity|].
  cbn [overwrite_separator]. destruct (is_nul b) eqn:Hnul.
  - cbn. now rewrite Hnul.
  - destruct (Byte.eqb b DASH) eqn:Hdash.
    + destruct seen; [reflexivity|]. cbn. now rewrite Hnul, Hdash, IH.
    + cbn. now rewrite Hnul, Hdash, IH.
Qed.

(** The registry reads the same entry from a buffer and from its
    truncation. *)
Lemma registry_entry_truncation (token : list byte) :
  registry_entry (described_truncation token) = registry_entry token.
Proof.
  unfold described_truncation. induction token as [|b rest IH]; [reflexivity|].
  cbn [overwrite_separator]. destruct (is_nul b) eqn:Hnul; [reflexivity|].
  destruct (Byte.eqb b DASH) eqn:Hdash.
  - rewrite !registry_entry_separator by assumption. now rewrite IH.
  - unfold registry_entry. rewrite !strtok_r_token by assumption.
    now rewrite overwrite_separator_idempotent.
Qed.

Lemma populate_token_same_entry (self_hostport : option (list byte)) (i : Z)
    (token1 token2 : list byte) (st1 st2 : populate_state) :
  registry_entry token1 = registry_entry token2 ->
  same_scan st1 st2 ->
  match populate_token self_hostport i token1 st1,
        populate_token self_hostport i token2 st2 with
  | Ret (Continue st1', _), Ret (Continue st2', _) => same_scan st1' st2'
  | Ret (Failed h1, _), Ret (Failed h2, _) => h1 = h2
  | Undefined, Undefined => True
  | _, _ => False
  end.
Proof.
  unfold populate_token, registry_entry, same_scan, strdup.
  intros Hentry (Hfi & Hfo & Hh). rewrite Hh.
  destruct (strtok_r token1 (cstr "-")) as [[s1|] b1],
           (strtok_r token2 (cstr "-")) as [[s2|] b2]; try discriminate.
  - injection Hentry as Hentry. rewrite Hentry.
    destruct (alloc (heap_left st2)) as [[|] h']; [|reflexivity].
    destruct self_hostport as [self|]; [|exact I].
    cbn. rewrite Hfi, Hfo. auto.
  - cbn. rewrite Hfi. auto.
Qed.

Lemma populate_loop_same_entries (self_hostport : option (list byte))
    (rest1 : list (list byte)) :
  forall (rest2 : list (list byte)) (i : Z) (st1 st2 : populate_state),
  map registry_entry rest1 = map registry_entry rest2 ->
  same_scan st1 st2 ->
  match populate_loop self_hostport i rest1 st1,
        populate_loop self_hostport i rest2 st2 with
  | Ret (Continue st1', _), Ret (Continue st2', _) => same_scan st1' st2'
  | Ret (Failed h1, _), Ret (Failed h2, _) => h1 = h2
  | Undefined, Undefined => True
  | _, _ => False
  end.
Proof.
  induction rest1 as [|t1 rest1 IH]; intros [|t2 rest2] i st1 st2 Hmap Hsame;
    try discriminate.
  - exact Hsame.
  - cbn [map] in Hmap. injection Hmap as Hentry Hmap. cbn [populate_loop].
    pose proof (populate_token_same_entry self_hostport i t1 t2 st1 st2 Hentry Hsame)
      as Htoken.
    destruct (populate_token self_hostport i t1 st1) as [[[a|ha] b1]| | |],
             (populate_token self_hostport i t2 st2) as [[[a'|ha'] b2]| | |];
      cbn [bind]; try contradiction; trivial.
    now apply IH.
Qed.

Section Suffix.

Context {env : Env}.

(** X14.  A reconfiguration depends on the tokens only through the
    entries the registry reads from them: two lists whose tokens give the
    same entries, such as lists that differ in what follows the separator,
    lead from the same handle and allocator to the same returned value, the
    same handle and the same allocator state. *)
Theorem reconfigure_ignores_suffixes (config : cluster_config)
    (server_list1 server_list2 : list (list byte)) (h : heap) (returned : bool)
    (config' : cluster_config) (left1 : list (list byte)) (h' : heap) :
  map registry_entry server_list1 = map registry_entry server_list2 ->
  cluster_config_reconfigure config server_list1 h = Ret (returned, config', left1, h') ->
  exists left2,
    cluster_config_reconfigure config server_list2 h = Ret (returned, config', left2, h').
Proof.
  intros Hmap. unfold cluster_config_reconfigure, server_item_populate.
  rewrite <- (length_map registry_entry server_list1), Hmap, length_map.
  destruct (alloc h) as [[|] h0]; cbn [negb].
  2:{ cbn [bind]. intros [= <- <- _ <-]. eauto. }
  pose proof (populate_loop_same_entries (self_hostport config) server_list1 server_list2
                0 (mk_populate [] [] 0 h0) (mk_populate [] [] 0 h0) Hmap
                (conj eq_refl (conj eq_refl eq_refl))) as Hloop.
  destruct (populate_loop (self_hostport config) 0 server_list1 _)
    as [[[st1|hf1] sl1]| | |],
    (populate_loop (self_hostport config) 0 server_list2 _)
    as [[[st2|hf2] sl2]| | |]; cbn [bind]; try contradiction; try discriminate.
  - destruct Hloop as (-> & -> & ->).
    destruct (ketama_continuum_generate (filled st2) (heap_left st2))
      as [[[[ring len]|] h2]| | |]; cbn [bind]; try discriminate.
    + intros [= <- <- _ <-]. eauto.
    + intros [= <- <- _ <-]. eauto.
  - subst hf2. intros [= <- <- _ <-]. eauto.
Qed.

(** A reconfiguration that succeeds depends on the handle only through
    the own address. *)
Lemma reconfigure_depends_on_own_address (config1 config2 : cluster_config)
    (server_list : list (list byte)) (h : heap)
    (config' : cluster_config) (server_list' : list (list byte)) (h' : heap) :
  self_hostport config1 = self_hostport config2 ->
  cluster_config_reconfigure config1 server_list h = Ret (true, config', server_list', h') ->
  cluster_config_reconfigure config2 server_list h = Ret (true, config', server_list', h').
Proof.
  intros Hself. unfold cluster_config_reconfigure. rewrite Hself.
  destruct (server_item_populate server_list (self_hostport config2) 0 h)
    as [[[[[srv self]|] sl1] h1]| | |]; cbn [bind]; try discriminate.
  destruct (ketama_continuum_generate srv h1) as [[[[ring len]|] h2]| | |];
    cbn [bind]; try discriminate. trivial.
Qed.

(** X15.  A reconfiguration that succeeds can be repeated on what it left:
    called again on the handle it installed, with the truncated buffers it
    left in the caller's list and an allocator that answers as before, it
    succeeds again, installs the same state and leaves the buffers as they
    are. *)
Theorem reconfigure_repeats (config : cluster_config)
    (server_list : list (list byte)) (h : heap)
    (config' : cluster_config) (server_list' : list (list byte)) (h' : heap) :
  cluster_config_reconfigure config server_list h = Ret (true, config', server_list', h') ->
  cluster_config_reconfigure config' server_list' h = Ret (true, config', server_list', h').
Proof.
  intros Hre.
  pose proof (reconfigure_success_ring _ _ _ _ _ _ Hre) as (_ & _ & _ & _ & _ & _ & _ & Hself).
  assert (server_list' = map described_truncation server_list) as Hleft.
  { apply reconfigure_inv in Hre.
    destruct Hre as [[Hf _]|[_ (srv & self & h1 & unsorted & Hpop & _)]]; [discriminate|].
    apply server_item_populate_success in Hpop. now destruct Hpop as (_ & _ & _ & _ & -> & _). }
  apply reconfigure_depends_on_own_address with (config1 := config); [now symmetry|].
  destruct (reconfigure_ignores_suffixes config server_list server_list' h true config'
              server_list' h') as [left2 Hre2]; trivial.
  { rewrite Hleft, map_map. apply map_ext. intros t.
    symmetry. apply registry_entry_truncation. }
  rewrite Hre2. f_equal. f_equal. f_equal.
  apply reconfigure_inv in Hre2.
  destruct Hre2 as [[Hf _]|[_ (srv & self & h1 & unsorted & Hpop & _)]]; [discriminate|].
  apply server_item_populate_success in Hpop. destruct Hpop as (_ & _ & _ & _ & -> & _).
  rewrite Hleft, map_map. apply map_ext. intros t. unfold described_truncation.
  apply overwrite_separator_idempotent.
Qed.

End Suffix.

Lemma reconfigure_ignores_suffixes_witness :
  exists left2,
    @cluster_config_reconfigure E (handle_for "host:1")
       [cstr "host:1"; cstr "host:2-zoneB-rack7"] []
    = Ret (true, example_config, left2, []).
Proof.
  apply (@reconfigure_ignores_suffixes E (handle_for "host:1") example_servers
           [cstr "host:1"; cstr "host:2-zoneB-rack7"] [] true example_config
           [store (cstr "host:1-zoneA") 6 NUL; cstr "host:2"] []).
  - reflexivity.
  - vm_compute. reflexivity.
Defined.

Lemma reconfigure_repeats_witness :
  @cluster_config_reconfigure E example_config
     [store (cstr "host:1-zoneA") 6 NUL; cstr "host:2"] []
  = Ret (true, example_config, [store (cstr "host:1-zoneA") 6 NUL; cstr "host:2"], []).
Proof.
  apply (@reconfigure_repeats E (handle_for "host:1") example_servers []).
  vm_compute. reflexivity.
Defined.

(** ** The caller's buffers when an allocation fails *)

(** X16.  Whatever the allocator answers, a reconfiguration that returns
    has truncated the buffers of a front part of the caller's list and has
    left the others as they were; when [calloc] refuses the server array it
    returns false with the whole list untouched and the handle only marked
    invalid. *)
Theorem failed_allocation_spares_later_tokens {env : Env} (config : cluster_config)
    (server_list : list (list byte)) (h : heap) (returned : bool)
    (config' : cluster_config) (server_list' : list (list byte)) (h' : heap) :
  cluster_config_reconfigure config server_list h
    = Ret (returned, config', server_list', h') ->
  (exists n : nat, (n <= List.length server_list)%nat /\
     server_list'
     = map described_truncation (firstn n server_list) ++ skipn n server_list) /\
  (fst (alloc h) = false ->
   returned = false /\ server_list' = server_list /\ config' = reconfig_failed config).
Proof.
  intros Hre. split.
  - unfold cluster_config_reconfigure in Hre. bind_inv Hre.
    destruct a as [[populated sl1] h1].
    apply server_item_populate_buffers in Hm. destruct Hm as (n & Hn & -> & _).
    exists n. split; trivial.
    destruct populated as [[srv self]|].
    + bind_inv Hre. destruct a as [[[ring len]|] h2]; now injection Hre.
    + now injection Hre.
  - intros Hrefused. unfold cluster_config_reconfigure, server_item_populate in Hre.
    destruct (alloc h) as [ok h0]. cbn in Hrefused. subst ok.
    cbn in Hre. injection Hre as <- <- <- _. auto.
Qed.

Lemma failed_allocation_spares_later_tokens_witness :
  (exists n : nat, (n <= List.length [cstr "a-1"; cstr "b-2"; cstr "c-3"])%nat /\
     [store (cstr "a-1") 1 NUL; store (cstr "b-2") 1 NUL; cstr "c-3"]
     = map described_truncation (firstn n [cstr "a-1"; cstr "b-2"; cstr "c-3"])
       ++ skipn n [cstr "a-1"; cstr "b-2"; cstr "c-3"]) /\
  (fst (alloc [true; true; false]) = false ->
   false = false /\
   [store (cstr "a-1") 1 NUL; store (cstr "b-2") 1 NUL; cstr "c-3"]
   = [cstr "a-1"; cstr "b-2"; cstr "c-3"] /\
   reconfig_failed example_config = reconfig_failed example_config).
Proof.
  apply (@failed_allocation_spares_later_tokens E example_config
           [cstr "a-1"; cstr "b-2"; cstr "c-3"] [true; true; false] false
           (reconfig_failed example_config)
           [store (cstr "a-1") 1 NUL; store (cstr "b-2") 1 NUL; cstr "c-3"] []).
  reflexivity.
Defined.

(** ** An address that just fills the array [host] *)

Lemma utoa_digits (hh : Z) :
  In hh (range 40) ->
  exists d rest, utoa hh = d :: rest /\
    (if hh <? 10 then rest = [] else List.length rest = 1%nat).
Proof.
  intros Hin.
  assert (forallb (fun h => match utoa h with
                            | [_] => h <? 10
                            | [_; _] => negb (h <? 10)
                            | _ => false
                            end) (range 40) = true) as H by (vm_compute; reflexivity).
  rewrite forallb_forall in H. specialize (H hh Hin).
  destruct (utoa hh) as [|d [|d2 [|d3 rest]]]; try discriminate.
  - exists d, []. rewrite H. auto.
  - exists d, [d2]. apply negb_true_iff in H. rewrite H. auto.
Qed.

Section Boundary.

Context {env : Env}.

(** X17.  An address of exactly MAX_SERVER_ITEM_COUNT + 7 bytes: the texts
    "<address>-<h>" with one digit fit the array [host], those with two
    digits are one byte too long, so that [snprintf] drops the second digit
    and [hash_md5] hashes the cut text with its terminator.  The rounds
    return, but for h from 10 on the digest is that of "<address>-" with
    the first digit of h and a NUL: the ten rounds of each decade give the
    same four points. *)
Theorem boundary_address_repeats_points (ss : Z) (server : server_item)
    (address : list byte) :
  hostport server = Some address ->
  Z.of_nat (List.length (c_string address)) = MAX_SERVER_ITEM_COUNT + 7 ->
  hash_loop ss server
  = Ret (flat_map (fun hh =>
           let text :=
             if hh <? 10 then c_string address ++ DASH :: utoa hh
             else c_string address ++ DASH :: firstn 1 (utoa hh) ++ [NUL] in
           map (fun n => mk_point ss (pointFromDigest (MD5 text) (4 * n))) [0; 1; 2; 3])
         (range 40)).
Proof.
  intros Hhost Hlen. unfold hash_loop. apply for_each_ext_in. intros hh Hin.
  unfold snprintf_host. rewrite Hhost.
  destruct (utoa_digits hh Hin) as (d & rest & Hutoa & Hrest). rewrite Hutoa.
  rewrite length_app. cbn [List.length firstn].
  destruct (hh <? 10).
  - subst rest. cbn [List.length].
    destruct (Z.ltb_spec (Z.of_nat (List.length (c_string address) + 2))
                         (MAX_SERVER_ITEM_COUNT + 10)); [|lia].
    cbn [bind]. rewrite hash_md5_whole. apply point_loop.
  - destruct rest as [|d2 [|d3 rest]]; try discriminate. cbn [List.length].
    destruct (Z.ltb_spec (Z.of_nat (List.length (c_string address) + 3))
                         (MAX_SERVER_ITEM_COUNT + 10)); [lia|].
    destruct (Z.eqb_spec (Z.of_nat (List.length (c_string address) + 3))
                         (MAX_SERVER_ITEM_COUNT + 10)); [|lia].
    cbn [bind]. rewrite hash_md5_whole.
    replace (Z.to_nat (MAX_SERVER_ITEM_COUNT + 10 - 1))
      with (List.length (c_string address) + 2)%nat by lia.
    rewrite firstn_app, firstn_all2 by lia.
    replace (List.length (c_string address) + 2 - List.length (c_string address))%nat
      with 2%nat by lia.
    cbn [firstn app]. rewrite <- app_assoc. cbn [app]. apply point_loop.
Qed.

End Boundary.

Lemma boundary_address_repeats_points_witness :
  @hash_loop E 0 (mk_server (Some (repeat x61 107)))
  = Ret (flat_map (fun hh =>
           let text :=
             if hh <? 10 then c_string (repeat x61 107) ++ DASH :: utoa hh
             else c_string (repeat x61 107) ++ DASH :: firstn 1 (utoa hh) ++ [NUL] in
           map (fun n => mk_point 0 (pointFromDigest (@MD5 E text) (4 * n))) [0; 1; 2; 3])
         (range 40)).
Proof.
  apply (@boundary_address_repeats_points E 0 (mk_server (Some (repeat x61 107)))
           (repeat x61 107)).
  - reflexivity.
  - vm_compute. reflexivity.
Defined.

(** ** From the own address to the keys that are mine *)

Lemma registry_entry_c_string (token address : list byte) :
  hostport (registry_entry token) = Some address -> c_string address = address.
Proof.
  unfold registry_entry.
  destruct (strtok_r token (cstr "-")) as [[start|] buf]; [|discriminate].
  intros [= <-]. apply c_string_idempotent.
Qed.

Lemma c_string_firstn (s : list byte) (n : nat) :
  (List.length (c_string s) <= n)%nat -> c_string (firstn n (c_string s)) = c_string s.
Proof.
  intros H. rewrite firstn_all2 by exact H. apply c_string_idempotent.
Qed.

(** X18.  From the own address to the keys that are mine: after
    [cluster_config_set_hostport] has stored the whole string [address]
    (its length argument covers the string and [strndup] is served) and a
    reconfiguration has succeeded on a list in which some token's address
    is that string, every key for which the lookup returns true falls to
    an entry of the installed server list that holds that address. *)
Theorem mine_means_own_address {env : Env} (config : cluster_config)
    (address : list byte) (hostport_len : Z) (h0 : heap)
    (config1 : cluster_config) (h1 : heap)
    (server_list : list (list byte)) (h : heap)
    (config2 : cluster_config) (server_list' : list (list byte)) (h' : heap)
    (token : list byte) (key : list byte) (nkey : Z) (fuel : nat) (owner self : Z) :
  cluster_config_set_hostport config address hostport_len h0 = Ret (config1, h1) ->
  fst (alloc h0) = true ->
  strlen address <= hostport_len ->
  cluster_config_reconfigure config1 server_list h
    = Ret (true, config2, server_list', h') ->
  In token server_list ->
  hostport (registry_entry token) = Some (c_string address) ->
  cluster_config_key_is_mine fuel config2 key nkey = Ret (true, Some (owner, self)) ->
  exists srv,
    servers config2 = Some srv /\
    nth_error srv (Z.to_nat owner) = Some (mk_server (Some (c_string address))).
Proof.
  intros Hset Hserved Hlen Hre Hin Htoken Hlook.
  assert (self_hostport config1
          = Some (firstn (Z.to_nat hostport_len) (c_string address))) as Hself.
  { unfold cluster_config_set_hostport, strndup in Hset.
    destruct (hostport_len <=? 0); [discriminate|].
    destruct (alloc h0) as [ok h2]. cbn in Hserved. subst ok.
    now injection Hset as <- _. }
  assert (c_string (firstn (Z.to_nat hostport_len) (c_string address))
          = c_string address) as Hwhole.
  { apply c_string_firstn. unfold strlen in Hlen. lia. }
  pose proof (reconfigure_success_ring _ _ _ _ _ _ Hre)
    as (unsorted & _ & Hring & Hsrv & Hvalid & Hnum & Hns & _).
  exists (map registry_entry server_list). split; [exact Hsrv|].
  apply lookup_returns_successor
    with (ring := qsort continuum_item_cmp unsorted) in Hlook;
    trivial; [|apply qsort_ascending].
  destruct Hlook as (e & _ & [= -> ->] & Hmine).
  symmetry in Hmine. apply Z.eqb_eq in Hmine. rewrite Hmine.
  apply reconfigure_self_index in Hre. destruct Hre as (st & sl & Hloop & Hid).
  apply populate_loop_self_cases in Hloop.
  destruct Hloop as [[_ Hnone]|(k & t & Hnth & Hown & Hfound)].
  { exfalso. apply (Hnone token Hin). unfold own_address.
    rewrite Hself, Htoken, Hwhole. now rewrite c_string_idempotent. }
  cbn in Hfound. rewrite Hid, Hfound, Nat2Z.id, nth_error_map, Hnth. cbn [option_map].
  f_equal. unfold own_address in Hown. rewrite Hself in Hown.
  destruct (registry_entry t) as [[a|]] eqn:Ht; [|contradiction]. cbn in Hown.
  f_equal. f_equal. rewrite <- Hwhole, Hown. symmetry.
  apply (registry_entry_c_string t). now rewrite Ht.
Qed.

Lemma mine_means_own_address_witness :
  exists srv,
    servers example_config = Some srv /\
    nth_error srv (Z.to_nat 0) = Some (mk_server (Some (c_string (cstr "host:1")))).
Proof.
  apply (@mine_means_own_address E fresh_handle (cstr "host:1") 6 []
           (handle_for "host:1") [] example_servers []
           example_config [store (cstr "host:1-zoneA") 6 NUL; cstr "host:2"] []
           (cstr "host:1-zoneA") (cstr "foo") 3 321 0 0).
  - reflexivity.
  - reflexivity.
  - cbn. lia.
  - vm_compute. reflexivity.
  - now left.
  - reflexivity.
  - vm_compute. reflexivity.
Defined.

(** ** The share of each server *)

Lemma points_of_permutation (s : Z) (ring1 ring2 : list continuum_item) :
  Permutation ring1 ring2 ->
  List.length (points_of s ring1) = List.length (points_of s ring2).
Proof.
  unfold points_of. induction 1 as [|p l l' _ IH|p q l|l l' l'' _ IH1 _ IH2]; cbn.
  - reflexivity.
  - destruct (index p =? s); cbn; now rewrite IH.
  - destruct (index p =? s), (index q =? s); reflexivity.
  - now rewrite IH1.
Qed.

Section Share.

Context {env : Env}.

Lemma points_of_server_loop_from (s : Z) (srv : list server_item) :
  forall (start : nat) (unsorted : list continuum_item),
  for_each (fun '(ss, server) => hash_loop ss server)
    (combine (map Z.of_nat (seq start (List.length srv))) srv) = Ret unsorted ->
  List.length (points_of s unsorted)
  = if (Z.of_nat start <=? s) && (s <? Z.of_nat (start + List.length srv))
    then 160%nat else 0%nat.
Proof.
  induction srv as [|server srv IH]; intros start unsorted H.
  - cbn in H. injection H as <-. cbn.
    destruct (Z.leb_spec (Z.of_nat start) s), (Z.ltb_spec s (Z.of_nat (start + 0)));
      cbn; trivial; lia.
  - cbn [List.length seq map combine for_each] in H.
    bind_inv H. bind_inv H. injection H as <-. rename a into block, a0 into rest.
    apply hash_loop_shape in Hm. destruct Hm as [Hlen Hidx].
    apply IH in Hm0. unfold points_of in *. rewrite filter_app, length_app, Hm0.
    fold (points_of s block). rewrite (points_of_block s (Z.of_nat start)) by exact Hidx.
    destruct (Z.eqb_spec (Z.of_nat start) s) as [Heq|Hne]; [rewrite Hlen|];
      cbn [List.length];
      repeat match goal with
             | |- context [?a <=? ?b] => destruct (Z.leb_spec a b)
             | |- context [?a <? ?b] => destruct (Z.ltb_spec a b)
             end; cbn [andb Nat.add]; lia.
Qed.

(** X19.  Every server of a list that a reconfiguration has installed
    holds exactly 160 entries of the installed ring, whatever the addresses
    are and however [qsort] has ordered the ring. *)
Theorem installed_ring_share (config : cluster_config)
    (server_list : list (list byte)) (h : heap)
    (config' : cluster_config) (server_list' : list (list byte)) (h' : heap)
    (ring : list continuum_item) (s : Z) :
  cluster_config_reconfigure config server_list h = Ret (true, config', server_list', h') ->
  continuum config' = Some ring ->
  0 <= s < Z.of_nat (List.length server_list) ->
  List.length (points_of s ring) = 160%nat.
Proof.
  intros Hre Hring Hs. apply reconfigure_success_ring in Hre.
  destruct Hre as (unsorted & Hloop & Hc & _). rewrite Hring in Hc. injection Hc as ->.
  rewrite <- (points_of_permutation s _ _ (qsort_permutation continuum_item_cmp unsorted)).
  unfold server_loop, range in Hloop. rewrite Nat2Z.id in Hloop.
  rewrite (points_of_server_loop_from s _ 0 unsorted Hloop), length_map.
  cbn [Nat.add Z.of_nat].
  destruct (Z.leb_spec 0 s); [|lia].
  destruct (Z.ltb_spec s (Z.of_nat (List.length server_list))); [reflexivity | lia].
Qed.

End Share.

Lemma installed_ring_share_witness :
  List.length (points_of 1 example_ring) = 160%nat.
Proof.
  apply (@installed_ring_share E (handle_for "host:1") example_servers []
           example_config [store (cstr "host:1-zoneA") 6 NUL; cstr "host:2"] []
           example_ring 1).
  - vm_compute. reflexivity.
  - reflexivity.
  - cbn. lia.
Defined.
